(** * Vale check engine: a shallow embedding of [check/check.go] and of the
    dispatcher in the [lint] package, with the properties of the matchers.

    Go [int] values are [Z]; strings are byte strings ([string] of [ascii]);
    a run-time panic (index or slice out of range) is [None] in the
    [option] monad; Go maps are [gmap]s, iterated in an arbitrary order. *)

From Stdlib Require Import ZArith Ascii Lia Bool DecimalString.
From Stdlib Require String.
From stdpp Require Import base option list gmap strings.

Local Open Scope Z_scope.

(* ================================================================== *)
(** ** Go built-ins: indexing, slicing and the [strings] package       *)
(* ================================================================== *)

Module Go.

(** [l[i]]: panics when [i] is out of range. *)
Definition index {A} (l : list A) (i : Z) : option A :=
  if i <? 0 then None else l !! Z.to_nat i.

(** [s[lo:hi]] on a string: panics unless [0 <= lo <= hi <= len(s)]. *)
Definition slice (s : string) (lo hi : Z) : option string :=
  if (0 <=? lo) && (lo <=? hi) && (hi <=? Z.of_nat (String.length s))
  then Some (String.substring (Z.to_nat lo) (Z.to_nat (hi - lo)) s)
  else None.

(** [strings.HasPrefix]. *)
Definition HasPrefix (s pre : string) : bool := String.prefix pre s.

(** [strings.Count s sub] for a non-empty [sub]: the number of
    non-overlapping occurrences, scanning from the left.  [skip] is the
    number of bytes still covered by the occurrence just counted. *)
Fixpoint count_from (sub s : string) (skip : nat) : nat :=
  match s with
  | EmptyString => 0
  | String _ s' =>
      match skip with
      | S k => count_from sub s' k
      | O => if String.prefix sub s
             then S (count_from sub s' (String.length sub - 1))
             else count_from sub s' 0
      end
  end.

Definition Count (s sub : string) : Z := Z.of_nat (count_from sub s 0).

(** [strings.Join]. *)
Definition Join (l : list string) (sep : string) : string :=
  String.concat sep l.

(** [strings.Split(s, sep)] for a one-byte separator: never empty. *)
Fixpoint Split1 (s : string) (sep : ascii) : list string :=
  match s with
  | EmptyString => [EmptyString]
  | String c s' =>
      if Ascii.eqb c sep then EmptyString :: Split1 s' sep
      else match Split1 s' sep with
           | [] => [String c EmptyString]
           | w :: ws => String c w :: ws
           end
  end.

(** [fmt.Sprintf(format, arg)] for a format with a single [%s] verb and no
    other [%]: the argument replaces the verb. *)
Fixpoint Sprintf1 (format arg : string) : string :=
  match format with
  | String "%" (String "s" rest) => arg +:+ rest
  | String c rest => String c (Sprintf1 rest arg)
  | EmptyString => EmptyString
  end.

(** [fmt.Sprintf] of a [%d] verb. *)
Definition itoa (n : Z) : string :=
  DecimalString.NilZero.string_of_int (Z.to_int n).

(** [strings.TrimRight(s, cut)] for a one-byte cutset. *)
Fixpoint TrimRight1 (s : string) (cut : ascii) : string :=
  match s with
  | EmptyString => EmptyString
  | String c s' =>
      match TrimRight1 s' cut with
      | EmptyString => if Ascii.eqb c cut then EmptyString
                       else String c EmptyString
      | t => String c t
      end
  end.

(** [strings.Contains(s, sep)] for a one-byte [sep]. *)
Fixpoint Contains1 (s : string) (sep : ascii) : bool :=
  match s with
  | EmptyString => false
  | String c s' => Ascii.eqb c sep || Contains1 s' sep
  end.


End Go.

(* ================================================================== *)
(** ** The [core] package: the helpers the checks and the linter call  *)
(* ================================================================== *)

Module core.

(** Modelled from the spec: [core.StringInSlice] is absent from the
    sources; it tests whether a string is an element of a slice
    (the substring is "in the memory", "in the exceptions"). *)
Definition StringInSlice (a : string) (slice : list string) : bool :=
  existsb (String.eqb a) slice.

(** Modelled from the spec: [core.AllStringsInSlice] is absent from the
    sources; the memory "contains both alternatives" when every one of
    the given strings is an element of the slice. *)
Definition AllStringsInSlice (strings slice : list string) : bool :=
  forallb (fun s => StringInSlice s slice) strings.

(** Modelled from the spec: [core.HasAnyPrefix] is absent from the
    sources; it tests whether the text starts with one of the prefixes. *)
Definition HasAnyPrefix (text : string) (slice : list string) : bool :=
  existsb (Go.HasPrefix text) slice.

(** [core.Alert], with the fields the checks fill in. *)
Record Alert := mkAlert {
  Check : string;
  Description : string;
  Hide : bool;
  Link : string;
  Message : string;
  Severity : string;
  Span : list Z
}.

(** [core.Selector]. *)
Record Selector := mkSelector { Value : string }.

(** [core.File], with the fields the checks and the dispatcher use.
    [Checks] holds the per-extension on/off overrides, [Comments] the
    in-text directives, [Sequences] the sequence memory. *)
Record File := mkFile {
  Alerts : list Alert;
  BaseStyles : list string;
  Checks : gmap string bool;
  ChkToCtx : gmap string string;
  Comments : gmap string bool;
  NormedExt : string;
  RealExt : string;
  Sequences : list string
}.

(** [core.Config], with the fields the dispatcher reads. *)
Record Config := mkConfig {
  GChecks : gmap string bool;
  MinAlertLevel : Z
}.

(** The fields of [core.Config] that [check.NewManager] reads.  [SBaseStyles]
    is a Go map from a syntax to its styles; the list gives its values in
    the order in which the [range] visits them. *)
Record StylesConfig := mkStylesConfig {
  StylesPath : string;
  GBaseStyles : list string;
  SBaseStyles : list (list string);
  Checks_ : list string
}.

(** *** [core/format.go] *)

(** The double quote, which the patterns of Python's delimiters hold. *)
Definition dq : string := String "034" EmptyString.

(** [CommentsByNormedExt], as the literal lists it. *)
Definition CommentsByNormedExt_entries
  : list (string * list (string * string)) :=
  [(".c", [("inline", "(//.+)|(/\*.+\*/)");
           ("blockStart", "(/\*.*)");
           ("blockEnd", "(.*\*/)")]);
   (".css", [("inline", "(/\*.+\*/)");
             ("blockStart", "(/\*.*)");
             ("blockEnd", "(.*\*/)")]);
   (".rs", [("inline", "(//.+)");
            ("blockStart", "$^");
            ("blockEnd", "$^")]);
   (".r", [("inline", "(#.+)");
           ("blockStart", "$^");
           ("blockEnd", "$^")]);
   (".py", [("inline",
             "(#.*)|('{3}.+'{3})|(" +:+ dq +:+ "{3}.+" +:+ dq +:+ "{3})");
            ("blockStart",
             "(?m)^((?:\s{4,})?[r]?[" +:+ dq +:+ "']{3}.*)$");
            ("blockEnd", "(.*[" +:+ dq +:+ "']{3})")]);
   (".php", [("inline", "(//.+)|(/\*.+\*/)|(#.+)");
             ("blockStart", "(/\*.*)");
             ("blockEnd", "(.*\*/)")]);
   (".lua", [("inline", "(-- .+)");
             ("blockStart", "(-{2,3}\[\[.*)");
             ("blockEnd", "(.*\]\])")]);
   (".hs", [("inline", "(-- .+)");
            ("blockStart", "(\{-.*)");
            ("blockEnd", "(.*-\})")]);
   (".rb", [("inline", "(#.+)");
            ("blockStart", "(^=begin)");
            ("blockEnd", "(^=end)")])].

Definition CommentsByNormedExt : gmap string (gmap string string) :=
  list_to_map ((λ e : string * list (string * string),
                  (e.1, list_to_map e.2)) <$> CommentsByNormedExt_entries).

(** [FormatByExtension], as the literal lists it. *)
Definition FormatByExtension_entries : list (string * list string) :=
  [("\.(?:[rc]?py[3w]?|[Ss][Cc]onstruct)$", [".py"; "code"]);
   ("\.(?:adoc|asciidoc|asc)$", [".adoc"; "markup"]);
   ("\.(?:cpp|cc|c|cp|cxx|c\+\+|h|hpp|h\+\+)$", [".c"; "code"]);
   ("\.(?:cs|csx)$", [".c"; "code"]);
   ("\.(?:css)$", [".css"; "code"]);
   ("\.(?:go)$", [".c"; "code"]);
   ("\.(?:html|htm|shtml|xhtml)$", [".html"; "markup"]);
   ("\.(?:java|bsh)$", [".c"; "code"]);
   ("\.(?:js)$", [".c"; "code"]);
   ("\.(?:lua)$", [".lua"; "code"]);
   ("\.(?:md|mdown|markdown|markdn)$", [".md"; "markup"]);
   ("\.(?:php)$", [".php"; "code"]);
   ("\.(?:pl|pm|pod)$", [".r"; "code"]);
   ("\.(?:r|R)$", [".r"; "code"]);
   ("\.(?:rs)$", [".rs"; "code"]);
   ("\.(?:rst|rest)$", [".rst"; "markup"]);
   ("\.(?:swift)$", [".c"; "code"]);
   ("\.(?:txt)$", [".txt"; "text"]);
   ("\.(?:rb|Gemfile|Rakefile|Brewfile|gemspec)$", [".rb"; "code"]);
   ("\.(?:sass|less)$", [".c"; "code"]);
   ("\.(?:scala|sbt)$", [".c"; "code"]);
   ("\.(?:hs)$", [".hs"; "code"])].

Definition FormatByExtension : gmap string (list string) :=
  list_to_map FormatByExtension_entries.

End core.
Export core.

(* ================================================================== *)
(** ** What the checks take from outside the repository                *)
(* ================================================================== *)

(** The regular-expression package (the API of Go's [regexp]), the Unicode
    functions of [strings], and the helpers of [core] that are not among
    the sources ([FormatMessage], [CheckPOS], [LevelToInt],
    [Selector.Contains], [File.QueryComments], [File.AddAlert]).
    [AddAlert] returns the new values of the two fields it writes,
    [f.Alerts] and [f.ChkToCtx].  [Compile] returns [None] for a pattern
    that does not compile.
    The [FindAll...] functions return the matches in order; the empty list
    is Go's [nil]. *)
Class Runtime := {
  Regexp : Type;
  Compile : string → option Regexp;
  MatchString : Regexp → string → bool;
  FindAllStringIndex : Regexp → string → list (list Z);
  FindAllStringSubmatch : Regexp → string → list (list string);
  FindAllStringSubmatchIndex : Regexp → string → list (list Z);
  SubexpNames : Regexp → list string;
  TrimSpace : string → string;
  ToLower : string → string;
  FormatMessage : string → list string → string;
  CheckPOS : list Z → string → string → bool;
  LevelToInt : string → Z;
  Contains : Selector → Selector → bool;
  QueryComments : gmap string bool → string → bool;
  AddAlert : File → Alert → string → string → Z → Z
             → list Alert * gmap string string
}.

(* ================================================================== *)
(** ** Package [check]: rule definitions, matchers and loader          *)
(* ================================================================== *)

Module check.

(** The struct declarations of the package are not among the sources; the
    records below have the fields that the functions read and write. *)

(** [check.Definition]: the fields common to every rule. *)
Record Definition_ := mkDefinition {
  Code : bool;
  Description : string;
  Extends : string;
  Level : string;
  Link : string;
  Message : string;
  Name : string;
  Scope : string
}.

Definition with_Name (d : Definition_) (n : string) : Definition_ :=
  mkDefinition (Code d) (Description d) (Extends d) (Level d) (Link d)
    (Message d) n (Scope d).

Definition with_Extends (d : Definition_) (e : string) : Definition_ :=
  mkDefinition (Code d) (Description d) e (Level d) (Link d)
    (Message d) (Name d) (Scope d).

Record Existence := mkExistence {
  ex_def : Definition_;
  ex_Ignorecase : bool;
  ex_Nonword : bool;
  ex_Raw : list string;
  ex_Tokens : list string
}.

(** [Swap] is a Go map; the list gives its pairs in the order in which the
    loader's [range] visits them. *)
Record Substitution := mkSubstitution {
  su_def : Definition_;
  su_Ignorecase : bool;
  su_Nonword : bool;
  su_Swap : list (string * string);
  su_POS : string
}.

Record Occurrence := mkOccurrence {
  oc_def : Definition_;
  oc_Max : Z;
  oc_Token : string
}.

Record Repetition := mkRepetition {
  re_def : Definition_;
  re_Max : Z;
  re_Ignorecase : bool;
  re_Tokens : list string
}.

Record Consistency := mkConsistency {
  cs_def : Definition_;
  cs_Nonword : bool;
  cs_Ignorecase : bool;
  cs_Either : list (string * string)
}.

Record Conditional := mkConditional {
  cd_def : Definition_;
  cd_First : string;
  cd_Second : string;
  cd_Exceptions : list string
}.

(** [ruleFn]: a compiled rule.  Of the file it reads and extends only the
    sequence memory [f.Sequences], which is threaded explicitly; [None] is
    a panic. *)
Definition ruleFn : Type :=
  string → list string → option (list Alert * list string).

(** [check.Check]: a registered rule. *)
Record Check_ := mkCheck {
  chk_Code : bool;
  chk_Extends : string;
  chk_Level : Z;
  chk_Rule : ruleFn;
  chk_Scope : Selector
}.

Section Matchers.
Context `{RT : Runtime}.

Definition formatMessages (msg desc : string) (subs : list string)
  : string * string :=
  (FormatMessage msg subs, FormatMessage desc subs).

(** [makeAlert]: [loc[0]], [loc[1]] and the slice of [txt] can panic. *)
Definition makeAlert (chk : Definition_) (loc : list Z) (txt : string)
  : option Alert :=
  lo ← Go.index loc 0;
  hi ← Go.index loc 1;
  s ← Go.slice txt lo hi;
  let '(m, d) := formatMessages (Message chk) (Description chk) [s] in
  Some (mkAlert (Name chk) d false (Link chk) m (Level chk) loc).

(** *** [checkOccurrence] *)
Definition checkOccurrence (txt : string) (chk : Occurrence)
    (r : Regexp) (lim : Z) : option (list Alert) :=
  let locs := FindAllStringIndex r txt in
  let occurrences := Z.of_nat (length locs) in
  if lim <? occurrences then
    first ← Go.index locs 0;
    lo ← Go.index first 0;
    last ← Go.index locs (occurrences - 1);
    hi ← Go.index last 1;
    let d := oc_def chk in
    Some [mkAlert (Name d) (Description d) false (Link d) (Message d)
            (Level d) [lo; hi]]
  else Some [].

(** *** [checkExistence] *)
Fixpoint existence_loop (chk : Existence) (txt : string)
    (locs : list (list Z)) (alerts : list Alert) : option (list Alert) :=
  match locs with
  | [] => Some alerts
  | loc :: rest =>
      a ← makeAlert (ex_def chk) loc txt;
      existence_loop chk txt rest (alerts ++ [a])
  end.

Definition checkExistence (txt : string) (chk : Existence) (r : Regexp)
  : option (list Alert) :=
  existence_loop chk txt (FindAllStringIndex r txt) [].

(** *** [checkConditional] *)

(** The first loop: every match of the consequent with a first capture
    appends that capture to the sequence memory. *)
Fixpoint conditional_record (matches : list (list string))
    (seqs : list string) : option (list string) :=
  match matches with
  | [] => Some seqs
  | mat :: rest =>
      if 1 <? Z.of_nat (length mat) then
        m1 ← Go.index mat 1;
        conditional_record rest (seqs ++ [m1])
      else conditional_record rest seqs
  end.

(** The second loop, over the matches of the antecedent. *)
Fixpoint conditional_alerts (chk : Conditional) (txt : string)
    (seqs : list string) (locs : list (list Z)) (alerts : list Alert)
  : option (list Alert) :=
  match locs with
  | [] => Some alerts
  | loc :: rest =>
      lo ← Go.index loc 0;
      hi ← Go.index loc 1;
      s ← Go.slice txt lo hi;
      if negb (StringInSlice s seqs)
         && negb (StringInSlice s (cd_Exceptions chk))
      then a ← makeAlert (cd_def chk) loc txt;
           conditional_alerts chk txt seqs rest (alerts ++ [a])
      else conditional_alerts chk txt seqs rest alerts
  end.

Definition checkConditional (txt : string) (chk : Conditional)
    (seqs : list string) (r : list Regexp)
  : option (list Alert * list string) :=
  r0 ← Go.index r 0;
  seqs' ← conditional_record (FindAllStringSubmatch r0 txt) seqs;
  r1 ← Go.index r 1;
  alerts ← conditional_alerts chk txt seqs' (FindAllStringIndex r1 txt) [];
  Some (alerts, seqs').

(** *** [checkRepetition] *)
Fixpoint repetition_loop (chk : Repetition) (txt : string)
    (locs : list (list Z)) (prev : string) (ploc : list Z) (count : Z)
    (alerts : list Alert) : option (list Alert) :=
  match locs with
  | [] => Some alerts
  | loc :: rest =>
      lo ← Go.index loc 0;
      hi ← Go.index loc 1;
      s ← Go.slice txt lo hi;
      let curr := TrimSpace s in
      let hit :=
        if re_Ignorecase chk
        then String.eqb (ToLower curr) (ToLower prev)
             && negb (String.eqb curr "")
        else String.eqb curr prev && negb (String.eqb curr "") in
      let count := if hit then count + 1 else count in
      if hit && (re_Max chk <? count) then
        p0 ← Go.index ploc 0;
        l1 ← Go.index loc 1;
        let d := re_def chk in
        let '(m, ds) := formatMessages (Message d) (Description d) [curr] in
        let a := mkAlert (Name d) ds false (Link d) m (Level d) [p0; l1] in
        repetition_loop chk txt rest curr loc 0 (alerts ++ [a])
      else repetition_loop chk txt rest curr loc count alerts
  end.

Definition checkRepetition (txt : string) (chk : Repetition) (r : Regexp)
  : option (list Alert) :=
  repetition_loop chk txt (FindAllStringIndex r txt) "" [] 0 [].

(** *** [checkSubstitution] *)

(** The inner loop over one match: [submat] is the whole index vector,
    [rest] what is left of it from position [idx] on. *)
Fixpoint substitution_inner (chk : Substitution) (txt : string)
    (repl : list string) (submat : list Z) (idx : Z) (rest : list Z)
    (pos : bool) (alerts : list Alert) : option (bool * list Alert) :=
  match rest with
  | [] => Some (pos, alerts)
  | mat :: rest' =>
      if negb (mat =? -1) && (0 <? idx) && (Z.rem idx 2 =? 0) then
        hi ← Go.index submat (idx + 1);
        let loc := [mat; hi] in
        expected ← Go.index repl (Z.quot idx 2 - 1);
        s ← Go.slice txt mat hi;
        let observed := TrimSpace s in
        if negb (String.eqb expected observed) then
          let pos' :=
            if negb (String.eqb (su_POS chk) "")
            then CheckPOS loc (su_POS chk) txt else pos in
          let d := su_def chk in
          let '(m, ds) :=
            formatMessages (Message d) (Description d) [expected; observed] in
          let a := mkAlert (Name d) ds pos' (Link d) m (Level d) loc in
          substitution_inner chk txt repl submat (idx + 1) rest' pos'
            (alerts ++ [a])
        else substitution_inner chk txt repl submat (idx + 1) rest' pos alerts
      else substitution_inner chk txt repl submat (idx + 1) rest' pos alerts
  end.

Fixpoint substitution_outer (chk : Substitution) (txt : string)
    (repl : list string) (submats : list (list Z)) (pos : bool)
    (alerts : list Alert) : option (list Alert) :=
  match submats with
  | [] => Some alerts
  | submat :: rest =>
      '(pos', alerts') ←
        substitution_inner chk txt repl submat 0 submat pos alerts;
      substitution_outer chk txt repl rest pos' alerts'
  end.

Definition checkSubstitution (txt : string) (chk : Substitution)
    (r : Regexp) (repl : list string) : option (list Alert) :=
  if negb (MatchString r txt) then Some []
  else substitution_outer chk txt repl
         (FindAllStringSubmatchIndex r txt) false [].

(** *** [checkConsistency] *)
Fixpoint consistency_inner (names : list string) (submat : list Z)
    (idx : Z) (rest : list Z) (loc : list Z) (seqs : list string)
  : option (list Z * list string) :=
  match rest with
  | [] => Some (loc, seqs)
  | mat :: rest' =>
      if negb (mat =? -1) && (0 <? idx) && (Z.rem idx 2 =? 0) then
        hi ← Go.index submat (idx + 1);
        n ← Go.index names (Z.quot idx 2);
        consistency_inner names submat (idx + 1) rest' [mat; hi] (seqs ++ [n])
      else consistency_inner names submat (idx + 1) rest' loc seqs
  end.

Fixpoint consistency_outer (names : list string) (matches : list (list Z))
    (loc : list Z) (seqs : list string) : option (list Z * list string) :=
  match matches with
  | [] => Some (loc, seqs)
  | submat :: rest =>
      '(loc', seqs') ← consistency_inner names submat 0 submat loc seqs;
      consistency_outer names rest loc' seqs'
  end.

Definition checkConsistency (txt : string) (chk : Consistency)
    (seqs : list string) (r : Regexp) (opts : list string)
  : option (list Alert * list string) :=
  let matches := FindAllStringSubmatchIndex r txt in
  '(loc, seqs') ← consistency_outer (SubexpNames r) matches [] seqs;
  if negb (bool_decide (matches = [])) && AllStringsInSlice opts seqs' then
    let d := with_Name (cs_def chk) (Extends (cs_def chk)) in
    a ← makeAlert d loc txt;
    Some ([a], seqs')
  else Some ([], seqs').

(** *** The loader: compiling a definition and registering it *)

Definition ignoreCase : string := "(?i)".
Definition wordTemplate : string := "\b(?:%s)\b".
Definition nonwordTemplate : string := "(?:%s)".

(** [check.Manager]. *)
Record Manager := mkManager {
  AllChecks : gmap string Check_;
  Config_ : Config
}.

Definition updateAllChecks (mgr : Manager) (chkDef : Definition_)
    (fn : ruleFn) : Manager :=
  let chk := mkCheck (Code chkDef) (Extends chkDef)
               (LevelToInt (Level chkDef)) fn (mkSelector (Scope chkDef)) in
  mkManager (<[Name chkDef := chk]> (AllChecks mgr)) (Config_ mgr).

(** A rule that leaves the sequence memory alone. *)
Definition pure_rule (fn : string → option (list Alert)) : ruleFn :=
  fun text seqs => alerts ← fn text; Some (alerts, seqs).

(** [addOccurrenceCheck].  [core.CheckError(err, _)] reports the error and
    is true exactly when there is none, that is when [Compile] succeeded. *)
Definition addOccurrenceCheck (mgr : Manager) (chkName : string)
    (chkDef : Occurrence) : Manager :=
  match Compile (oc_Token chkDef) with
  | Some re =>
      if 1 <=? oc_Max chkDef then
        let fn := pure_rule (fun text =>
                    checkOccurrence text chkDef re (oc_Max chkDef)) in
        updateAllChecks mgr (oc_def chkDef) fn
      else mgr
  | None => mgr
  end.

(** The pattern [addRepetitionCheck] compiles. *)
Definition repetition_regex (chkDef : Repetition) : string :=
  (if re_Ignorecase chkDef then ignoreCase else "")
  +:+ "(" +:+ Go.Join (re_Tokens chkDef) "|" +:+ ")".

Definition addRepetitionCheck (mgr : Manager) (chkName : string)
    (chkDef : Repetition) : Manager :=
  match Compile (repetition_regex chkDef) with
  | Some re =>
      let fn := pure_rule (fun text => checkRepetition text chkDef re) in
      updateAllChecks mgr (re_def chkDef) fn
  | None => mgr
  end.

Definition addConditionalCheck (mgr : Manager) (chkName : string)
    (chkDef : Conditional) : Manager :=
  match Compile (cd_Second chkDef) with
  | None => mgr
  | Some re2 =>
      match Compile (cd_First chkDef) with
      | None => mgr
      | Some re1 =>
          let expression := [re2; re1] in
          let fn : ruleFn := fun text seqs =>
            checkConditional text chkDef seqs expression in
          updateAllChecks mgr (cd_def chkDef) fn
      end
  end.

(** The template both [addSubstitutionCheck] and [addConsistencyCheck]
    start from. *)
Definition regex_template (ignorecase nonword : bool) : string :=
  (if ignorecase then ignoreCase else "")
  +:+ (if negb nonword then wordTemplate else nonwordTemplate).

(** The loop of [addSubstitutionCheck] over [chkDef.Swap]: a pattern is
    either skipped ([continue]) or added to [tokens] and [replacements]. *)
Definition swap_refused (regexstr : string) : bool :=
  let opens := Go.Count regexstr "(" in
  negb (opens =? Go.Count regexstr "?:")
  && negb (opens =? Go.Count regexstr "\(").

Fixpoint swap_loop (swap : list (string * string)) (tokens : string)
    (replacements : list string) : string * list string :=
  match swap with
  | [] => (tokens, replacements)
  | (regexstr, replacement) :: rest =>
      if swap_refused regexstr then swap_loop rest tokens replacements
      else swap_loop rest (tokens +:+ "(" +:+ regexstr +:+ ")|")
             (replacements ++ [replacement])
  end.

Definition substitution_regex (chkDef : Substitution) : string * list string :=
  let '(tokens, replacements) := swap_loop (su_Swap chkDef) "" [] in
  (Go.Sprintf1 (regex_template (su_Ignorecase chkDef) (su_Nonword chkDef))
     (Go.TrimRight1 tokens "|"),
   replacements).

Definition addSubstitutionCheck (mgr : Manager) (chkName : string)
    (chkDef : Substitution) : Manager :=
  let '(regex, replacements) := substitution_regex chkDef in
  match Compile regex with
  | Some re =>
      let fn := pure_rule (fun text =>
                  checkSubstitution text chkDef re replacements) in
      updateAllChecks mgr (su_def chkDef) fn
  | None => mgr
  end.

(** The loop of [addConsistencyCheck] over [chkDef.Either]; the fields
    [Extends] and [Name] written to [chkDef] persist across iterations. *)
Fixpoint either_loop (mgr : Manager) (chkName chkKey regex : string)
    (chkDef : Consistency) (either : list (string * string)) (count : Z)
  : Manager :=
  match either with
  | [] => mgr
  | (v1, v2) :: rest =>
      let count := count + 2 in
      let subs := [chkKey +:+ Go.itoa count; chkKey +:+ Go.itoa (count + 1)] in
      let chkRE := "(?P<" +:+ chkKey +:+ Go.itoa count +:+ ">" +:+ v1
                   +:+ ")|(?P<" +:+ chkKey +:+ Go.itoa (count + 1) +:+ ">"
                   +:+ v2 +:+ ")" in
      let chkRE := Go.Sprintf1 regex chkRE in
      match Compile chkRE with
      | Some re =>
          let d := with_Name (with_Extends (cs_def chkDef) chkName)
                     (chkName +:+ "." +:+ v1) in
          let chkDef := mkConsistency d (cs_Nonword chkDef)
                          (cs_Ignorecase chkDef) (cs_Either chkDef) in
          let fn : ruleFn := fun text seqs =>
            checkConsistency text chkDef seqs re subs in
          either_loop (updateAllChecks mgr d fn) chkName chkKey regex chkDef
            rest count
      | None => either_loop mgr chkName chkKey regex chkDef rest count
      end
  end.

(** [addConsistencyCheck]; [strings.Split(chkName, ".")[1]] panics when
    the name has no dot. *)
Definition addConsistencyCheck (mgr : Manager) (chkName : string)
    (chkDef : Consistency) : option Manager :=
  let regex := regex_template (cs_Ignorecase chkDef) (cs_Nonword chkDef) in
  chkKey ← Go.index (Go.Split1 chkName ".") 1;
  Some (either_loop mgr chkName chkKey regex chkDef (cs_Either chkDef) 0).

(** *** [checkCapitalization] *)

(** [check.Capitalization]; [Check] is the predicate that the loader
    derives from [Match]. *)
Record Capitalization := mkCapitalization {
  ca_def : Definition_;
  ca_Match : string;
  ca_Style : string;
  ca_Check : string → bool
}.

Definition checkCapitalization (txt : string) (chk : Capitalization)
  : option (list Alert) :=
  if negb (ca_Check chk txt) then
    a ← makeAlert (ca_def chk) [0; Z.of_nat (String.length txt)] txt;
    Some [a]
  else Some [].

End Matchers.
(** *** [NewManager] *)

(** What [NewManager] asks to be loaded: the built-in rules, a style
    directory ([loadExternalStyle(path)], with the style it is the
    directory of) or the file of one rule ([loadCheck(fName, path)], with
    the style it belongs to).  The rules that a load registers depend on
    the files. *)
Inductive Load :=
| LoadDefaultRules
| LoadExternalStyle (style path : string)
| LoadCheck (style fName path : string).

Section Loading.
(** [filepath.Join]. *)
Variable Join : list string → string.

(** The loop over [Config.GBaseStyles]. *)
Fixpoint global_styles (baseDir : string) (styles : list string)
    (loadedStyles : list string) (log : list Load)
  : list string * list Load :=
  match styles with
  | [] => (loadedStyles, log)
  | style :: rest =>
      if String.eqb style "vale"
      then global_styles baseDir rest loadedStyles log
      else global_styles baseDir rest (loadedStyles ++ [style])
             (log ++ [LoadExternalStyle style (Join [baseDir; style])])
  end.

(** The inner loop over the styles of one syntax. *)
Fixpoint syntax_styles (baseDir : string) (styles : list string)
    (loadedStyles : list string) (log : list Load)
  : list string * list Load :=
  match styles with
  | [] => (loadedStyles, log)
  | style :: rest =>
      if negb (StringInSlice style loadedStyles)
      then syntax_styles baseDir rest (loadedStyles ++ [style])
             (log ++ [LoadExternalStyle style (Join [baseDir; style])])
      else syntax_styles baseDir rest loadedStyles log
  end.

(** The loop over [Config.SBaseStyles]. *)
Fixpoint all_syntax_styles (baseDir : string) (sbase : list (list string))
    (loadedStyles : list string) (log : list Load)
  : list string * list Load :=
  match sbase with
  | [] => (loadedStyles, log)
  | styles :: rest =>
      let '(loadedStyles', log') :=
        syntax_styles baseDir styles loadedStyles log in
      all_syntax_styles baseDir rest loadedStyles' log'
  end.

(** The loop over [Config.Checks]; [parts[0]] and [parts[1]] can panic. *)
Fixpoint single_checks (baseDir : string) (checks : list string)
    (loadedStyles : list string) (log : list Load) : option (list Load) :=
  match checks with
  | [] => Some log
  | chk :: rest =>
      if negb (Go.Contains1 chk ".")
      then single_checks baseDir rest loadedStyles log
      else
        let parts := Go.Split1 chk "." in
        p0 ← Go.index parts 0;
        if negb (StringInSlice p0 loadedStyles) then
          p1 ← Go.index parts 1;
          let fName := p1 +:+ ".yml" in
          single_checks baseDir rest loadedStyles
            (log ++ [LoadCheck p0 fName (Join [baseDir; p0; fName])])
        else single_checks baseDir rest loadedStyles log
  end.

(** [NewManager]: the loads it performs, in order. *)
Definition NewManager (config : StylesConfig) : option (list Load) :=
  let log := [LoadDefaultRules] in
  if String.eqb (StylesPath config) "" then Some log
  else
    let loadedStyles := ["vale"] in
    let baseDir := StylesPath config in
    let '(loadedStyles, log) :=
      global_styles baseDir (GBaseStyles config) loadedStyles log in
    let '(loadedStyles, log) :=
      all_syntax_styles baseDir (SBaseStyles config) loadedStyles log in
    single_checks baseDir (Checks_ config) loadedStyles log.

End Loading.

End check.

(* ================================================================== *)
(** ** Package [lint]: the dispatcher and the file walk                *)
(* ================================================================== *)

Module lint.
Import check.

(** [lint.Linter]. *)
Record Linter := mkLinter {
  Config : core.Config;
  CheckManager : Manager
}.

(** [lint.Block]. *)
Record Block := mkBlock {
  Context : string;
  Text : string;
  Raw : string;
  Scope : Selector
}.

Definition NewBlock (ctx txt raw sel : string) : Block :=
  let ctx := if String.eqb ctx "" then txt else ctx in
  mkBlock ctx txt raw (mkSelector sel).

(** One call [chk.Rule(txt, f)] made by the dispatcher: the name of the
    rule, the text it was given and the alerts it returned. *)
Record Call := mkCall {
  call_name : string;
  call_txt : string;
  call_alerts : list Alert
}.

Section Dispatch.
Context `{RT : Runtime}.

Definition with_ChkToCtx (f : File) (m : gmap string string) : File :=
  mkFile (Alerts f) (BaseStyles f) (Checks f) m (Comments f) (NormedExt f)
    (RealExt f) (Sequences f).

Definition with_Sequences (f : File) (seqs : list string) : File :=
  mkFile (Alerts f) (BaseStyles f) (Checks f) (ChkToCtx f) (Comments f)
    (NormedExt f) (RealExt f) seqs.

(** [f.AddAlert(a, ctx, txt, lines, pad)]. *)
Definition add_alert (f : File) (a : Alert) (ctx txt : string)
    (lines pad : Z) : File :=
  let '(alerts, c2c) := AddAlert f a ctx txt lines pad in
  mkFile alerts (BaseStyles f) (Checks f) c2c (Comments f) (NormedExt f)
    (RealExt f) (Sequences f).

(** The text a rule is given: [blk.Raw] or [blk.Text]. *)
Definition rule_text (hasCode : bool) (chk : Check_) (blk : Block) : string :=
  if chk_Code chk && hasCode then Raw blk else Text blk.

(** The guards of the loop body of [lintText], up to the call of the rule:
    [false] stands for a [continue]. *)
Definition passes_guards (l : Linter) (f : File) (blk : Block)
    (hasCode : bool) (name : string) (chk : Check_) : bool :=
  let style := hd "" (Go.Split1 name ".") in
  let run := false in
  let txt := rule_text hasCode chk blk in
  if QueryComments (Comments f) name || String.eqb txt "" then false
  else if (chk_Level chk <? MinAlertLevel (Config l))
          || negb (Contains (Scope blk) (chk_Scope chk)) then false
  else
    match (match Checks f !! name with
           | Some val => if negb run
                         then (if negb val then None else Some true)
                         else Some run
           | None => Some run
           end) with
    | None => false
    | Some run =>
        match (match GChecks (Config l) !! name with
               | Some val => if negb run
                             then (if negb val then None else Some true)
                             else Some run
               | None => Some run
               end) with
        | None => false
        | Some run =>
            if negb run && negb (StringInSlice style (BaseStyles f))
            then false else true
        end
    end.

(** The loop body of [lintText] for one entry of [AllChecks]; the second
    component of the state logs the calls of rules. *)
Definition lintText_body (l : Linter) (blk : Block) (lines pad : Z)
    (hasCode : bool) (st : File * list Call) (entry : string * Check_)
  : option (File * list Call) :=
  let '(f, calls) := st in
  let '(name, chk) := entry in
  let ctx := Context blk in
  let txt := rule_text hasCode chk blk in
  if passes_guards l f blk hasCode name chk then
    '(alerts, seqs) ← chk_Rule chk txt (Sequences f);
    let f := with_Sequences f seqs in
    let f := foldl (fun f a => add_alert f a ctx txt lines pad) f alerts in
    Some (f, calls ++ [mkCall name txt alerts])
  else Some st.

Fixpoint lintText_loop (l : Linter) (blk : Block) (lines pad : Z)
    (hasCode : bool) (order : list (string * Check_)) (st : File * list Call)
  : option (File * list Call) :=
  match order with
  | [] => Some st
  | entry :: rest =>
      st' ← lintText_body l blk lines pad hasCode st entry;
      lintText_loop l blk lines pad hasCode rest st'
  end.

(** [lintText]; [order] is the order in which the [range] over
    [l.CheckManager.AllChecks] visits the registry. *)
Definition lintText (l : Linter) (order : list (string * Check_)) (f : File)
    (blk : Block) (lines pad : Z) : option (File * list Call) :=
  let hasCode := StringInSlice (NormedExt f) [".md"; ".adoc"; ".rst"] in
  let f := with_ChkToCtx f ∅ in
  lintText_loop l blk lines pad hasCode order (f, []).

(** *** [lintProse] and [lintLines] *)

(** [lintText] on successive blocks of one file, each with its line
    argument.  A [range] over the registry has its own order each time:
    [order_of n] is the order of the call number [n]. *)
Fixpoint lintBlocks (l : Linter) (order_of : nat → list (string * Check_))
    (n : nat) (f : File) (blocks : list (Block * Z)) (pad : Z)
    (calls : list Call) : option (File * list Call) :=
  match blocks with
  | [] => Some (f, calls)
  | (blk, lines) :: rest =>
      '(f', new) ← lintText l (order_of n) f blk lines pad;
      lintBlocks l order_of (S n) f' rest pad (calls ++ new)
  end.

Section Prose.
(** [core.PrepText] and [core.SentenceTokenizer.Tokenize]. *)
Variable PrepText : string → string.
Variable Tokenize : string → list string.

Definition newline : ascii := "010".



(** The blocks of [lintLines], one for each line that [f.Scanner] scans,
    with the line argument; [lines] is the counter of the loop. *)
Fixpoint line_blocks (f : File) (lines : Z) (scanned : list string)
  : list (Block * Z) :=
  match scanned with
  | [] => []
  | text :: rest =>
      let line := PrepText (text +:+ String newline EmptyString) in
      (NewBlock "" line "" ("text" +:+ RealExt f), lines + 1)
      :: line_blocks f (lines + 1) rest
  end.

Definition lintLines (l : Linter) (order_of : nat → list (string * Check_))
    (f : File) (scanned : list string) : option (File * list Call) :=
  lintBlocks l order_of 0 f (line_blocks f 1 scanned) 0 [].

End Prose.

End Dispatch.

(** *** [lintFiles] *)

(** One call of the walk function by [filepath.Walk]: the path, the
    [os.FileInfo] ([fi.Name()] is the base name), whether the walk reported
    an error, and the two scheduling outcomes that the code leaves to the
    run time: whether [done] is found closed after the worker is started,
    and whether the worker's [select] sends its file. *)
Record Visit := mkVisit {
  v_fp : string;
  v_name : string;
  v_isDir : bool;
  v_err : bool;
  v_done : bool;
  v_sent : bool
}.

Definition ignore : list string := ["."; "_"].

(** The walk function: [None] when it returns before [wg.Add()]. *)
Definition walkFn (glob : string → bool) (v : Visit) : option Visit :=
  if v_err v || v_isDir v then None
  else if negb (glob (v_fp v)) || HasAnyPrefix (v_name v) ignore then None
  else Some v.

(** The walk: the workers started, in order, until the walk function
    returns the error [walk canceled]. *)
Fixpoint spawned (glob : string → bool) (visits : list Visit) : list Visit :=
  match visits with
  | [] => []
  | v :: rest =>
      match walkFn glob v with
      | None => spawned glob rest
      | Some w => if v_done w then [w] else w :: spawned glob rest
      end
  end.

(** [lintFiles]: the visits whose files, [l.lintFile(fp)], reach
    [filesChan]. *)
Definition lintFiles (glob : string → bool) (visits : list Visit)
  : list Visit :=
  filter (fun w => v_sent w = true) (spawned glob visits).

End lint.

(* ================================================================== *)
(** ** A reference run time for concrete scenarios                     *)
(* ================================================================== *)

(** A backtracking matcher for the fragment of the pattern syntax that the
    scenarios use, on ASCII patterns and texts: literals, [.], [\w \d \s],
    [\b], [^ $], classes [[a-z]], groups (capturing, [(?:...)],
    [(?P<name>...)]), alternation, the greedy operators [* + ?] and
    [{m,n}], and a leading [(?i)].  Alternatives are tried from the left
    and the leftmost match wins, as in the regular-expression package. *)

Module RefRegex.

Inductive item :=
| IRange (lo hi : ascii)
| IWord
| IDigit
| ISpace.

Inductive cls :=
| CByte (c : ascii)
| CAny
| CSet (neg : bool) (items : list item).

Inductive re :=
| Eps
| Cls (c : cls)
| WordB
| Bot
| Eot
| Cat (a b : re)
| Alt (a b : re)
| Star (a : re)
| Group (i : nat) (a : re).

(** A compiled pattern: the number of capturing groups and their names. *)
Record compiled := mkCompiled {
  c_icase : bool;
  c_re : re;
  c_ncap : nat;
  c_names : list string
}.

Definition between (lo hi : nat) (c : ascii) : bool :=
  let n := nat_of_ascii c in (lo <=? n)%nat && (n <=? hi)%nat.

Definition is_upper (c : ascii) : bool := between 65 90 c.
Definition is_lower (c : ascii) : bool := between 97 122 c.
Definition is_digit (c : ascii) : bool := between 48 57 c.
Definition is_word (c : ascii) : bool :=
  is_upper c || is_lower c || is_digit c || Ascii.eqb c "_".
Definition is_space (c : ascii) : bool :=
  between 9 13 c || Ascii.eqb c " ".

Definition lower (c : ascii) : ascii :=
  if is_upper c then ascii_of_nat (nat_of_ascii c + 32) else c.
Definition upper (c : ascii) : ascii :=
  if is_lower c then ascii_of_nat (nat_of_ascii c - 32) else c.

Definition item_match (i : item) (c : ascii) : bool :=
  match i with
  | IRange lo hi => between (nat_of_ascii lo) (nat_of_ascii hi) c
  | IWord => is_word c
  | IDigit => is_digit c
  | ISpace => is_space c
  end.

Definition cls_match1 (k : cls) (c : ascii) : bool :=
  match k with
  | CByte b => Ascii.eqb b c
  | CAny => negb (Ascii.eqb c "010")
  | CSet neg items => xorb neg (existsb (fun i => item_match i c) items)
  end.

Definition cls_match (icase : bool) (k : cls) (c : ascii) : bool :=
  cls_match1 k c
  || (icase && (cls_match1 k (lower c) || cls_match1 k (upper c))).

(** The matcher's position in the text: the offset, the byte before it,
    the text from it on, and the groups captured so far. *)
Record mstate := mkM {
  m_pos : nat;
  m_prev : option ascii;
  m_rest : string;
  m_caps : list (option (nat * nat))
}.

Definition word_before (s : mstate) : bool :=
  match m_prev s with Some c => is_word c | None => false end.
Definition word_after (s : mstate) : bool :=
  match m_rest s with String c _ => is_word c | EmptyString => false end.

Fixpoint run (icase : bool) (r : re) (s : mstate)
    (k : mstate → option mstate) : option mstate :=
  match r with
  | Eps => k s
  | Cls c =>
      match m_rest s with
      | String ch rest =>
          if cls_match icase c ch
          then k (mkM (S (m_pos s)) (Some ch) rest (m_caps s))
          else None
      | EmptyString => None
      end
  | WordB => if xorb (word_before s) (word_after s) then k s else None
  | Bot => match m_prev s with None => k s | Some _ => None end
  | Eot => match m_rest s with EmptyString => k s | _ => None end
  | Cat a b => run icase a s (fun s' => run icase b s' k)
  | Alt a b =>
      match run icase a s k with
      | Some x => Some x
      | None => run icase b s k
      end
  | Star a =>
      (fix loop (n : nat) (s : mstate) : option mstate :=
         match n with
         | O => k s
         | S n' =>
             match run icase a s (fun s' =>
                     if (m_pos s' =? m_pos s)%nat then None
                     else loop n' s') with
             | Some x => Some x
             | None => k s
             end
         end) (S (String.length (m_rest s))) s
  | Group i a =>
      run icase a s (fun s' =>
        k (mkM (m_pos s') (m_prev s') (m_rest s')
             (<[i := Some (m_pos s, m_pos s')]> (m_caps s'))))
  end.

(** The index vector of a match: start and end of the whole match, then of
    every group, [-1] for a group that took no part. *)
Definition vector (start : nat) (s : mstate) : list Z :=
  [Z.of_nat start; Z.of_nat (m_pos s)]
  ++ concat ((fun c : option (nat * nat) =>
                match c with
                | Some (a, b) => [Z.of_nat a; Z.of_nat b]
                | None => [-1; -1]
                end) <$> drop 1 (m_caps s)).

(** The leftmost match that starts at [pos] or later. *)
Fixpoint search (c : compiled) (pos : nat) (prev : option ascii)
    (rest : string) : option (list Z) :=
  match run (c_icase c) (c_re c)
          (mkM pos prev rest (replicate (S (c_ncap c)) None)) Some with
  | Some s => Some (vector pos s)
  | None =>
      match rest with
      | String ch rest' => search c (S pos) (Some ch) rest'
      | EmptyString => None
      end
  end.

Definition execute (c : compiled) (txt : string) (pos : nat)
  : option (list Z) :=
  search c pos
    (match pos with O => None | S p => String.get p txt end)
    (String.substring pos (String.length txt - pos) txt).

(** All successive matches: after a non-empty match the search resumes at
    its end; an empty match moves the search one byte on, and is dropped
    when it touches the end of the previous match. *)
Fixpoint all_matches (fuel : nat) (c : compiled) (txt : string) (pos : nat)
    (prevMatchEnd : Z) : list (list Z) :=
  match fuel with
  | O => []
  | S fuel' =>
      if (String.length txt <? pos)%nat then []
      else match execute c txt pos with
           | None => []
           | Some mt =>
               let s := default 0 (mt !! 0%nat) in
               let e := default 0 (mt !! 1%nat) in
               let empty := e =? Z.of_nat pos in
               let accept := negb (empty && (s =? prevMatchEnd)) in
               let pos' := if empty then S pos else Z.to_nat e in
               (if accept then [mt] else [])
               ++ all_matches fuel' c txt pos' e
           end
  end.

Definition find_all (c : compiled) (txt : string) : list (list Z) :=
  all_matches (String.length txt + 2) c txt 0 (-1).

(** Pairs of a vector: [[s0; e0; s1; e1; ...]] to [[(s0, e0); ...]]. *)
Fixpoint pairs (v : list Z) : list (Z * Z) :=
  match v with
  | a :: b :: rest => (a, b) :: pairs rest
  | _ => []
  end.

Definition submatch_text (txt : string) (p : Z * Z) : string :=
  if fst p <? 0 then ""
  else String.substring (Z.to_nat (fst p)) (Z.to_nat (snd p - fst p)) txt.

Definition find_all_index (c : compiled) (txt : string) : list (list Z) :=
  take 2 <$> find_all c txt.

Definition find_all_submatch (c : compiled) (txt : string)
  : list (list string) :=
  (fun v => submatch_text txt <$> pairs v) <$> find_all c txt.

Definition match_string (c : compiled) (txt : string) : bool :=
  bool_decide (is_Some (execute c txt 0)).


(** *** The parser of the fragment *)

(** The groups opened so far: the next group number and the names of the
    groups, in order. *)
Record groups := mkGroups {
  g_next : nat;
  g_names : list string
}.

Definition open_group (name : string) (g : groups) : groups :=
  mkGroups (S (g_next g)) (g_names g ++ [name]).

(** [a{lo,}] and [a{lo,hi}] by unfolding. *)
Fixpoint repeat_opt (a : re) (n : nat) : re :=
  match n with
  | O => Eps
  | S n' => Alt (Cat a (repeat_opt a n')) Eps
  end.

Fixpoint repeat_min (a : re) (lo : nat) (tail : re) : re :=
  match lo with
  | O => tail
  | S lo' => Cat a (repeat_min a lo' tail)
  end.

Fixpoint read_nat (s : string) (acc : option nat) : option nat * string :=
  match s with
  | String c s' =>
      match Ascii.is_nat c with
      | Some d => read_nat s' (Some (10 * default 0%nat acc + d)%nat)
      | None => (acc, s)
      end
  | EmptyString => (acc, s)
  end.

Fixpoint read_until (stop : ascii) (s : string) : option (string * string) :=
  match s with
  | EmptyString => None
  | String c s' =>
      if Ascii.eqb c stop then Some (EmptyString, s')
      else '(w, r) ← read_until stop s'; Some (String c w, r)
  end.

(** The items of a class, up to the closing bracket. *)
Fixpoint read_items (s : string) : option (list item * string) :=
  match s with
  | EmptyString => None
  | String "]" s' => Some ([], s')
  | String "\" (String c s') =>
      '(its, r) ← read_items s';
      let i := if Ascii.eqb c "w" then IWord
               else if Ascii.eqb c "d" then IDigit
               else if Ascii.eqb c "s" then ISpace
               else IRange c c in
      Some (i :: its, r)
  | String lo (String "-" (String hi s')) =>
      if Ascii.eqb hi "]" then
        Some ([IRange lo lo; IRange "-" "-"], s')
      else '(its, r) ← read_items s'; Some (IRange lo hi :: its, r)
  | String c s' => '(its, r) ← read_items s'; Some (IRange c c :: its, r)
  end.

(** One postfix operator, if there is one. *)
Definition postfix (a : re) (s : string) : option (re * string) :=
  match s with
  | String "*" s' => Some (Star a, s')
  | String "+" s' => Some (Cat a (Star a), s')
  | String "?" s' => Some (Alt a Eps, s')
  | String "{" s' =>
      match read_nat s' None with
      | (Some lo, String "}" r) => Some (repeat_min a lo Eps, r)
      | (Some lo, String "," (String "}" r)) =>
          Some (repeat_min a lo (Star a), r)
      | (Some lo, String "," r) =>
          match read_nat r None with
          | (Some hi, String "}" r') =>
              if (lo <=? hi)%nat
              then Some (repeat_min a lo (repeat_opt a (hi - lo)), r')
              else None
          | _ => None
          end
      | _ => None
      end
  | _ => Some (a, s)
  end.

Definition expect_close (s : string) : option string :=
  match s with
  | String ")" s' => Some s'
  | _ => None
  end.

Definition escape (c : ascii) : re :=
  if Ascii.eqb c "b" then WordB
  else if Ascii.eqb c "w" then Cls (CSet false [IWord])
  else if Ascii.eqb c "d" then Cls (CSet false [IDigit])
  else if Ascii.eqb c "s" then Cls (CSet false [ISpace])
  else if Ascii.eqb c "W" then Cls (CSet true [IWord])
  else if Ascii.eqb c "D" then Cls (CSet true [IDigit])
  else if Ascii.eqb c "S" then Cls (CSet true [ISpace])
  else Cls (CByte c).

Fixpoint parse_alt (fuel : nat) (s : string) (g : groups)
  : option (re * string * groups) :=
  match fuel with
  | O => None
  | S fuel' =>
      '(a, s1, g1) ← parse_cat fuel' s g;
      match s1 with
      | String "|" s2 =>
          '(b, s3, g3) ← parse_alt fuel' s2 g1; Some (Alt a b, s3, g3)
      | _ => Some (a, s1, g1)
      end
  end
with parse_cat (fuel : nat) (s : string) (g : groups)
  : option (re * string * groups) :=
  match fuel with
  | O => None
  | S fuel' =>
      match s with
      | EmptyString | String "|" _ | String ")" _ => Some (Eps, s, g)
      | _ =>
          '(a, s1, g1) ← parse_atom fuel' s g;
          '(a', s2) ← postfix a s1;
          match s2 with
          | String "?" _ | String "*" _ | String "+" _ => None
          | _ => '(b, s3, g3) ← parse_cat fuel' s2 g1;
                 Some (Cat a' b, s3, g3)
          end
      end
  end
with parse_atom (fuel : nat) (s : string) (g : groups)
  : option (re * string * groups) :=
  match fuel with
  | O => None
  | S fuel' =>
      match s with
      | String "(" (String "?" (String ":" s')) =>
          '(a, s1, g1) ← parse_alt fuel' s' g;
          s2 ← expect_close s1; Some (a, s2, g1)
      | String "(" (String "?" (String "P" (String "<" s'))) =>
          '(name, s0) ← read_until ">" s';
          '(a, s1, g1) ← parse_alt fuel' s0 (open_group name g);
          s2 ← expect_close s1; Some (Group (g_next g) a, s2, g1)
      | String "(" (String "?" _) => None
      | String "(" s' =>
          '(a, s1, g1) ← parse_alt fuel' s' (open_group "" g);
          s2 ← expect_close s1; Some (Group (g_next g) a, s2, g1)
      | String "[" (String "^" s') =>
          '(its, s1) ← read_items s'; Some (Cls (CSet true its), s1, g)
      | String "[" s' =>
          '(its, s1) ← read_items s'; Some (Cls (CSet false its), s1, g)
      | String "\" (String c s') => Some (escape c, s', g)
      | String "." s' => Some (Cls CAny, s', g)
      | String "^" s' => Some (Bot, s', g)
      | String "$" s' => Some (Eot, s', g)
      | String c s' =>
          if existsb (Ascii.eqb c) ["*"; "+"; "?"; "{"; "}"; ")"; "|"; "\"]%char
          then None else Some (Cls (CByte c), s', g)
      | EmptyString => None
      end
  end.

Definition compile (pattern : string) : option compiled :=
  let '(icase, body) :=
    match pattern with
    | String "(" (String "?" (String "i" (String ")" s'))) => (true, s')
    | _ => (false, pattern)
    end in
  '(a, rest, g) ← parse_alt (3 * String.length body + 3) body (mkGroups 1 []);
  match rest with
  | EmptyString => Some (mkCompiled icase a (g_next g - 1) ("" :: g_names g))
  | _ => None
  end.

End RefRegex.

(** The reference run time: the matcher above, the ASCII cases of
    [strings.TrimSpace] and [strings.ToLower], and the [core] helpers
    modelled from the specification. *)
Module Ref.

Fixpoint trim_left (s : string) : string :=
  match s with
  | String c s' => if RefRegex.is_space c then trim_left s' else s
  | EmptyString => EmptyString
  end.

Fixpoint trim_right (s : string) : string :=
  match s with
  | EmptyString => EmptyString
  | String c s' =>
      match trim_right s' with
      | EmptyString => if RefRegex.is_space c then EmptyString
                       else String c EmptyString
      | t => String c t
      end
  end.

Definition TrimSpace (s : string) : string := trim_right (trim_left s).

Fixpoint ToLower (s : string) : string :=
  match s with
  | String c s' => String (RefRegex.lower c) (ToLower s')
  | EmptyString => EmptyString
  end.

(** Modelled from the spec: [core.FormatMessage] is absent from the
    sources; message templates use positional substitution, the format
    directives being bound to the given strings in the order they appear. *)
Fixpoint FormatMessage (msg : string) (subs : list string) : string :=
  match msg with
  | String "%" (String "s" rest) =>
      match subs with
      | x :: subs' => TrimSpace x +:+ FormatMessage rest subs'
      | [] => "%s" +:+ FormatMessage rest []
      end
  | String c rest => String c (FormatMessage rest subs)
  | EmptyString => EmptyString
  end.

(** Modelled from the spec: [core.LevelToInt] is absent from the sources;
    the severities suggestion, warning and error are mapped to an integer,
    and a Go map gives 0 for any other key. *)
Definition LevelToInt (level : string) : Z :=
  if String.eqb level "warning" then 1
  else if String.eqb level "error" then 2
  else 0.

(** Modelled from the spec: [Selector.Contains] is absent from the
    sources; a block's scope satisfies a rule's scope when every tag of the
    rule's dot-separated scope appears in the block's, the tag [text] being
    implied by every block, and an empty rule scope meaning any scope. *)
Definition Contains (blk rule : Selector) : bool :=
  String.eqb (Value rule) ""
  || forallb (fun tag => String.eqb tag "text"
                         || StringInSlice tag (Go.Split1 (Value blk) "."))
       (Go.Split1 (Value rule) ".").

(** Modelled from the spec: [File.QueryComments] is absent from the
    sources; in-text directives switch off every rule ([vale off]) or one
    rule by name. *)
Definition QueryComments (comments : gmap string bool) (name : string)
  : bool :=
  default false (comments !! "off") || default false (comments !! name).

(** Modelled from the spec: [File.AddAlert] is absent from the sources; it
    appends the alert to the file's alert list, unless the alert is
    hidden. *)
Definition AddAlert (f : File) (a : Alert) (ctx txt : string)
    (lines pad : Z) : list Alert * gmap string string :=
  (if Hide a then Alerts f else Alerts f ++ [a], ChkToCtx f).

Definition runtime : Runtime :=
  Build_Runtime RefRegex.compiled RefRegex.compile RefRegex.match_string
    RefRegex.find_all_index RefRegex.find_all_submatch RefRegex.find_all
    RefRegex.c_names TrimSpace ToLower FormatMessage (fun _ _ _ => false)
    LevelToInt Contains QueryComments AddAlert.

End Ref.

(* ================================================================== *)
(** ** The vocabulary of the properties                                *)
(* ================================================================== *)

Section Vocabulary.
Context `{RT : Runtime}.
Import check lint.

(** A location is a pair of offsets, as the package documents it. *)
Definition is_pair (loc : list Z) : Prop := length loc = 2%nat.

(** The alert of an Occurrence rule for the span [[lo; hi]]. *)
Definition occurrence_alert (chk : Occurrence) (lo hi : Z) : Alert :=
  let d := oc_def chk in
  mkAlert (Name d) (Description d) false (Link d) (Message d) (Level d)
    [lo; hi].

(** The fields of the file that decide whether a rule runs. *)
Definition same_settings (f f' : File) : Prop :=
  BaseStyles f' = BaseStyles f ∧ Checks f' = Checks f
  ∧ Comments f' = Comments f ∧ NormedExt f' = NormedExt f.

(** What a call records: the rule's name and the text it was given. *)
Definition call_of (blk : Block) (hasCode : bool) (c : Call)
    (e : string * Check_) : Prop :=
  call_name c = e.1 ∧ call_txt c = rule_text hasCode e.2 blk.

(** [hasCode] of [lintText]. *)
Definition hasCode_of (f : File) : bool :=
  StringInSlice (NormedExt f) [".md"; ".adoc"; ".rst"].





(** The dispatcher invokes the rule [name] in a run that made [calls]. *)
Definition invoked (calls : list Call) (name : string) : Prop :=
  ∃ c, c ∈ calls ∧ call_name c = name.

(** No registered rule panics. *)
Definition rules_total (l : Linter) : Prop :=
  ∀ name chk txt seqs,
    AllChecks (CheckManager l) !! name = Some chk →
    is_Some (chk_Rule chk txt seqs).

(** A location inside the text, and the text at it. *)
Definition in_range (txt : string) (p : Z * Z) : Prop :=
  0 ≤ p.1 ∧ p.1 ≤ p.2 ∧ p.2 ≤ Z.of_nat (String.length txt).

Definition text_at (txt : string) (p : Z * Z) : string :=
  String.substring (Z.to_nat p.1) (Z.to_nat (p.2 - p.1)) txt.

Definition loc_of (p : Z * Z) : list Z := [p.1; p.2].

(** The alert that [makeAlert] builds for a location inside the text. *)
Definition alert_at (d : Definition_) (txt : string) (p : Z * Z) : Alert :=
  mkAlert (Name d) (FormatMessage (Description d) [text_at txt p]) false
    (Link d) (FormatMessage (Message d) [text_at txt p]) (Level d) (loc_of p).

(** The first capture of every match that has one. *)
Definition first_captures (matches : list (list string)) : list string :=
  omap (λ mat : list string, mat !! 1%nat) matches.

(** An antecedent is undefined: its text is neither in the sequence memory
    nor among the exceptions. *)
Definition undefined_at (chk : Conditional) (seqs : list string)
    (txt : string) (p : Z * Z) : Prop :=
  (text_at txt p ∉ seqs) ∧ (text_at txt p ∉ cd_Exceptions chk).

#[global] Instance undefined_at_dec chk seqs txt p :
  Decision (undefined_at chk seqs txt p) :=
  ltac:(unfold undefined_at; apply _).

(** The capturing groups of an index vector that took part in the match:
    the group number and its location.  [v] is the vector from the pair
    of group [k] on. *)
Fixpoint groups_from (k : nat) (v : list Z) : list (nat * (Z * Z)) :=
  match v with
  | lo :: hi :: rest =>
      (if lo =? -1 then [] else [(k, (lo, hi))]) ++ groups_from (S k) rest
  | _ => []
  end.

Definition matched_groups (submat : list Z) : list (nat * (Z * Z)) :=
  groups_from 1 (drop 2 submat).

Definition all_groups (matches : list (list Z)) : list (nat * (Z * Z)) :=
  concat (matched_groups <$> matches).

(** The location of the last group of [gs], or [loc] when there is none. *)
Definition last_loc (loc : list Z) (gs : list (nat * (Z * Z))) : list Z :=
  match last gs with
  | Some g => loc_of g.2
  | None => loc
  end.

Definition group_names (names : list string) (gs : list (nat * (Z * Z)))
  : list string :=
  (λ g, default "" (names !! g.1)) <$> gs.

(** The alerts of one evaluation of a Consistency rule: one alert at the
    last group that took part in a match of the block, when both
    alternatives are in the sequence memory. *)
Definition consistency_alerts (chk : Consistency) (txt : string)
    (opts seqs' : list string) (groups : list (nat * (Z * Z))) : list Alert :=
  match last groups with
  | Some g =>
      if decide (Forall (λ o, o ∈ seqs') opts)
      then [alert_at (with_Name (cs_def chk) (Extends (cs_def chk))) txt g.2]
      else []
  | None => []
  end.

(** The [Hide] flag of an alert: the verdict of the part-of-speech check
    when the rule has a [pos] pattern. *)
Definition hide_of (chk : Substitution) (txt : string) (p : Z * Z) : bool :=
  if negb (String.eqb (su_POS chk) "")
  then CheckPOS (loc_of p) (su_POS chk) txt else false.

(** The replacement assigned to group [k] and the trimmed text observed at
    a location. *)
Definition expected_of (repl : list string) (k : nat) : string :=
  default "" (repl !! (k - 1)%nat).

Definition observed_at (txt : string) (p : Z * Z) : string :=
  TrimSpace (text_at txt p).

(** The alert for a group that took part in a match: none when the
    observed text is the group's replacement. *)
Definition substitution_alert (chk : Substitution) (txt : string)
    (repl : list string) (g : nat * (Z * Z)) : option Alert :=
  let expected := expected_of repl g.1 in
  let observed := observed_at txt g.2 in
  let d := su_def chk in
  if String.eqb expected observed then None
  else Some (mkAlert (Name d)
               (FormatMessage (Description d) [expected; observed])
               (hide_of chk txt g.2) (Link d)
               (FormatMessage (Message d) [expected; observed])
               (Level d) (loc_of g.2)).

(** The groups are usable: each has a replacement and lies in the text. *)
Definition usable (txt : string) (repl : list string)
    (g : nat * (Z * Z)) : Prop :=
  is_Some (repl !! (g.1 - 1)%nat) ∧ in_range txt g.2.

End Vocabulary.

Section MoreVocabulary.
Context `{RT : Runtime}.
Import check lint.

(** The alert that [makeAlert] builds from the offsets [lo] and [hi] of a
    location [span]. *)
Definition alert_with (d : Definition_) (txt : string) (lo hi : Z)
    (span : list Z) : Alert :=
  mkAlert (Name d) (FormatMessage (Description d) [text_at txt (lo, hi)])
    false (Link d) (FormatMessage (Message d) [text_at txt (lo, hi)])
    (Level d) span.

(** [makeAlert] succeeds on a location: its first two offsets delimit a
    slice of the text. *)
Definition made_from (d : Definition_) (txt : string) (loc : list Z)
    (a : Alert) : Prop :=
  ∃ lo hi rest,
    loc = lo :: hi :: rest ∧ in_range txt (lo, hi)
    ∧ a = alert_with d txt lo hi loc.

(** The trimmed text of a match. *)
Definition token_at (txt : string) (p : Z * Z) : string :=
  TrimSpace (text_at txt p).

(** The test of [checkRepetition]: the current token repeats the previous
    one. *)
Definition repeated (chk : Repetition) (prev curr : string) : bool :=
  (if re_Ignorecase chk then String.eqb (ToLower curr) (ToLower prev)
   else String.eqb curr prev)
  && negb (String.eqb curr "").

(** The number of matches that repeat the match before them; [prev] is the
    token before the first match. *)
Fixpoint hits_from (chk : Repetition) (txt : string) (prev : string)
    (ps : list (Z * Z)) : Z :=
  match ps with
  | [] => 0
  | p :: rest =>
      (if repeated chk prev (token_at txt p) then 1 else 0)
      + hits_from chk txt (token_at txt p) rest
  end.

Definition repetitions (chk : Repetition) (txt : string)
    (ps : list (Z * Z)) : Z :=
  hits_from chk txt "" ps.

(** The alert [a] reports the match at [q] as a repetition of the match at
    [p]. *)
Definition repeats_at (chk : Repetition) (txt : string) (p q : list Z)
    (a : Alert) : Prop :=
  ∃ p0 p1 pt q0 q1 qt,
    p = p0 :: p1 :: pt ∧ q = q0 :: q1 :: qt
    ∧ in_range txt (p0, p1) ∧ in_range txt (q0, q1)
    ∧ repeated chk (token_at txt (p0, p1)) (token_at txt (q0, q1)) = true
    ∧ Span a = [p0; q1]
    ∧ core.Message a
      = FormatMessage (Message (re_def chk)) [token_at txt (q0, q1)].

(** The previous match that the loop remembers: none yet, or a slice of
    the text whose token is [prev]. *)
Definition remembers (txt : string) (prev : string) (ploc : list Z) : Prop :=
  ploc = []
  ∨ ∃ p0 p1 pt,
      ploc = p0 :: p1 :: pt ∧ in_range txt (p0, p1)
      ∧ prev = token_at txt (p0, p1).

(** What one entry registered for a pair of alternatives is. *)
Definition pair_entry (chkName : string) (level : string) (code : bool)
    (either : list (string * string)) (name : string) (chk : Check_) : Prop :=
  ∃ v1 v2,
    (v1, v2) ∈ either ∧ name = chkName +:+ "." +:+ v1
    ∧ chk_Extends chk = chkName
    ∧ chk_Level chk = LevelToInt level ∧ chk_Code chk = code
    ∧ ∀ txt seqs alerts seqs',
        chk_Rule chk txt seqs = Some (alerts, seqs') →
        seqs `prefix_of` seqs' ∧ (length alerts ≤ 1)%nat
        ∧ Forall (λ a, core.Check a = chkName) alerts.

(** A rule only extends the sequence memory. *)
Definition only_extends (rule : ruleFn) : Prop :=
  ∀ txt seqs alerts seqs',
    rule txt seqs = Some (alerts, seqs') → seqs `prefix_of` seqs'.

(** The call [c] is a call of the registered rule [chk] on the block
    [blk] of the file [f], with a text that is not empty. *)
Definition call_on (l : Linter) (f : File) (blk : Block) (c : Call)
    (chk : Check_) : Prop :=
  AllChecks (CheckManager l) !! call_name c = Some chk
  ∧ call_txt c = rule_text (hasCode_of f) chk blk
  ∧ call_txt c ≠ "".

(** A visit that the walk function lets through. *)
Definition eligible (glob : string → bool) (v : Visit) : Prop :=
  v_err v = false ∧ v_isDir v = false ∧ glob (v_fp v) = true
  ∧ HasAnyPrefix (v_name v) ignore = false.

#[global] Instance eligible_dec glob v : Decision (eligible glob v) :=
  ltac:(unfold eligible; apply _).

(** The styles whose directories a log of loads has. *)
Definition external_styles (log : list Load) : list string :=
  omap (λ a, match a with
             | LoadExternalStyle style _ => Some style
             | _ => None
             end) log.

(** An entry of [FormatByExtension] is sound: a normed extension and one
    of the three formats, with comment delimiters for a code format. *)
Definition format_entry_ok (v : list string) : bool :=
  match v with
  | [ext; format] =>
      bool_decide (format ∈ ["markup"; "code"; "text"])
      && (negb (String.eqb format "code")
          || match CommentsByNormedExt !! ext with
             | Some m =>
                 bool_decide (is_Some (m !! "inline")
                              ∧ is_Some (m !! "blockStart")
                              ∧ is_Some (m !! "blockEnd"))
             | None => false
             end)
  | _ => false
  end.

End MoreVocabulary.

(* ================================================================== *)
(** ** Concrete rules and files, on the reference run time              *)
(* ================================================================== *)

Module Scenario.
Import check lint.

Definition rule_def (name msg : string) : Definition_ :=
  mkDefinition false "" "" "warning" "" msg name "text".

Definition code_def (name msg : string) : Definition_ :=
  mkDefinition true "" "" "warning" "" msg name "text".

Definition empty_mgr : Manager := mkManager ∅ (mkConfig ∅ 0).

(** The rule registered under [name], run on a text. *)
Definition run_rule (mgr : Manager) (name txt : string) (seqs : list string)
  : option (list Alert * list string) :=
  chk ← AllChecks mgr !! name; chk_Rule chk txt seqs.

(** A rule run on the successive blocks of one file, the sequence memory
    being the file's: the alerts of all the blocks. *)
Fixpoint run_blocks (mgr : Manager) (name : string) (blocks : list string)
    (seqs : list string) : option (list Alert * list string) :=
  match blocks with
  | [] => Some ([], seqs)
  | txt :: rest =>
      '(alerts, seqs') ← run_rule mgr name txt seqs;
      '(more, seqs'') ← run_blocks mgr name rest seqs';
      Some (alerts ++ more, seqs'')
  end.

Definition must_compile (pattern : string) : RefRegex.compiled :=
  default (RefRegex.mkCompiled false RefRegex.Eps 0 [""])
    (RefRegex.compile pattern).

(** Repetition, tokens [\w+], ignorecase. *)
Definition repetition_rule (max : Z) : Repetition :=
  mkRepetition (rule_def "vale.Repetition" "'%s' is repeated!") max true
    ["\w+"].

Definition repetition_mgr (max : Z) : Manager :=
  addRepetitionCheck (RT := Ref.runtime) empty_mgr "vale.Repetition"
    (repetition_rule max).

(** Consistency, either: color, colour. *)
Definition spelling : Consistency :=
  mkConsistency (rule_def "Style.Spelling" "Inconsistent spelling of '%s'")
    false false [("color", "colour")].

Definition spelling_mgr : Manager :=
  default empty_mgr
    (addConsistencyCheck (RT := Ref.runtime) empty_mgr "Style.Spelling"
       spelling).

Definition spelling_re : RefRegex.compiled :=
  must_compile "\b(?:(?P<Spelling2>color)|(?P<Spelling3>colour))\b".

(** Substitution, swap: utilize to use. *)
Definition swaps : Substitution :=
  mkSubstitution (rule_def "Style.Swap" "Use '%s' instead of '%s'") true false
    [("utilize", "use"); ("use", "use")] "".

Definition swaps_re : RefRegex.compiled :=
  must_compile (substitution_regex swaps).1.

(** Substitution, with patterns of every kind in the swap table. *)
Definition notes : Substitution :=
  mkSubstitution (rule_def "Style.Notes" "Use '%s' instead of '%s'")
    false false
    [("see", "cf."); ("(?:foo|bar)baz", "qux"); ("\(note\)?:", "note:");
     ("(colou?r)s", "colors")] "".

(** Occurrence, token [\bvery\b]. *)
Definition very (max : Z) : Occurrence :=
  mkOccurrence (code_def "Style.Very" "Too many") max "\bvery\b".

Definition very_re : RefRegex.compiled := must_compile "\bvery\b".

Definition very_mgr : Manager :=
  addOccurrenceCheck (RT := Ref.runtime) empty_mgr "Style.Very" (very 2).

Definition very_linter : Linter := mkLinter (mkConfig ∅ 0) very_mgr.

(** Conditional: an abbreviation needs a parenthetical definition. *)
Definition abbr : Conditional :=
  mkConditional (rule_def "Style.Abbr" "'%s' has no definition")
    "\b[A-Z]{3,5}\b" "\b[A-Za-z ]+\(([A-Z]{3,5})\)" [].

Definition who_text : string :=
  "The WHO met. Later, World Health Organization (WHO) agreed.".

Definition abbr_first : RefRegex.compiled := must_compile (cd_First abbr).
Definition abbr_second : RefRegex.compiled := must_compile (cd_Second abbr).

(** A Markdown file whose base styles include [Style]. *)
Definition md_file : File :=
  mkFile [] ["Style"] ∅ ∅ ∅ ".md" ".md" [].

(** The same file with the rule switched off for its extension, and a
    linter whose configuration switches the rule on globally. *)
Definition md_file_off : File :=
  mkFile [] ["Style"] {["Style.Very" := false]} ∅ ∅ ".md" ".md" [].

Definition very_linter_on : Linter :=
  mkLinter (mkConfig {["Style.Very" := true]} 0) very_mgr.

Definition very_block : Block :=
  NewBlock "" "very very very big" "very very very `very` big" "text.md".

(** A walk over a hidden file, a partial and a document. *)
Definition hidden : Visit :=
  mkVisit "docs/.draft.md" ".draft.md" false false false true.
Definition partial : Visit :=
  mkVisit "docs/_nav.md" "_nav.md" false false false true.
Definition readme : Visit :=
  mkVisit "docs/readme.md" "readme.md" false false false true.

(** A linter with the Consistency rule, and the file after a block with
    both spellings. *)
Definition spelling_linter : Linter := mkLinter (mkConfig ∅ 0) spelling_mgr.

Definition spelling_run : File * list Call :=
  default (md_file, [])
    (lintText (RT := Ref.runtime) spelling_linter
       (map_to_list (AllChecks spelling_mgr)) md_file
       (NewBlock "" "color colour" "" "text.md") 1 0).


Definition very_order (n : nat) : list (string * Check_) :=
  map_to_list (AllChecks (CheckManager very_linter)).

(** The expression of the Repetition rule. *)
Definition words_re : RefRegex.compiled :=
  must_compile (repetition_regex (repetition_rule 0)).

(** A block without any text. *)
Definition empty_block : Block := NewBlock "" "" "" "text.md".

(** A visit during which the walk finds [done] closed. *)
Definition closing : Visit :=
  mkVisit "docs/guide.md" "guide.md" false false true true.

(** A configuration of styles, and [filepath.Join] on a Unix system for
    parts that are clean. *)
Definition styles : StylesConfig :=
  mkStylesConfig "styles" ["vale"; "Base"] [["Base"; "Docs"]; ["Docs"]]
    ["Extra.Rule"; "Docs.Other"; "nodot"].

Definition join_slash (parts : list string) : string := Go.Join parts "/".

End Scenario.

(* ================================================================== *)
(** ** Properties                                                      *)
(* ================================================================== *)

(** *** Indexing *)

Lemma index_0 {A} (x : A) (l : list A) : Go.index (x :: l) 0 = Some x.
Proof. reflexivity. Qed.

Lemma index_1 {A} (x y : A) (l : list A) : Go.index (x :: y :: l) 1 = Some y.
Proof. reflexivity. Qed.

Lemma index_nat {A} (l : list A) (n : nat) :
  Go.index l (Z.of_nat n) = l !! n.
Proof.
  unfold Go.index. destruct (Z.ltb_spec (Z.of_nat n) 0); [lia|].
  by rewrite Nat2Z.id.
Qed.

Lemma index_last {A} (l : list A) :
  l ≠ [] → Go.index l (Z.of_nat (length l) - 1) = last l.
Proof.
  intros Hne. destruct l as [|x l]; [done|].
  replace (Z.of_nat (length (x :: l)) - 1) with (Z.of_nat (length l))
    by (cbn [length]; lia).
  rewrite index_nat, last_lookup. reflexivity.
Qed.

Lemma is_pair_inv (loc : list Z) : is_pair loc → ∃ lo hi, loc = [lo; hi].
Proof. destruct loc as [|lo [|hi [|]]]; try done. by exists lo, hi. Qed.

Section Occurrence.
Context `{RT : Runtime}.
Import check.

(** C6.  For an Occurrence rule with a limit [lim >= 0] and every text:
    when the number of matches of the token pattern is at most [lim], no
    alert is emitted; when it exceeds [lim], exactly one alert is emitted,
    whose span runs from the start of the first match to the end of the
    last match. *)
Theorem checkOccurrence_spec (txt : string) (chk : Occurrence) (r : Regexp)
    (lim : Z) :
  0 ≤ lim →
  Forall is_pair (FindAllStringIndex r txt) →
  let locs := FindAllStringIndex r txt in
  (Z.of_nat (length locs) ≤ lim → checkOccurrence txt chk r lim = Some [])
  ∧ (lim < Z.of_nat (length locs) →
     ∃ lo e hi s,
       head locs = Some [lo; e] ∧ last locs = Some [s; hi]
       ∧ checkOccurrence txt chk r lim = Some [occurrence_alert chk lo hi]).
Proof.
  intros Hlim Hwf locs. unfold checkOccurrence. fold locs.
  subst locs. revert Hwf. generalize (FindAllStringIndex r txt).
  intros locs Hwf. split.
  - intros Hle. destruct (Z.ltb_spec lim (Z.of_nat (length locs))); [lia|done].
  - intros Hgt. destruct (Z.ltb_spec lim (Z.of_nat (length locs))); [|lia].
    assert (Hne : locs ≠ [])
      by (intros E; rewrite E in Hgt; simpl in Hgt; lia).
    destruct locs as [|first rest]; [done|].
    assert (Hfirst : is_pair first) by (by inversion Hwf).
    apply is_pair_inv in Hfirst as (lo & e & ->).
    destruct (last (([lo; e] : list Z) :: rest)) as [l|] eqn:Hlast;
      [|apply last_None in Hlast; discriminate].
    assert (Hl : is_pair l).
    { rewrite Forall_forall in Hwf. apply Hwf.
      rewrite last_lookup in Hlast. by eapply list_elem_of_lookup_2. }
    apply is_pair_inv in Hl as (s & hi & ->).
    exists lo, e, hi, s. split; [done|]. split; [done|].
    rewrite index_0. cbn [mbind option_bind]. rewrite index_0.
    cbn [mbind option_bind]. rewrite index_last by done. rewrite Hlast.
    cbn [mbind option_bind]. rewrite index_1. reflexivity.
Qed.

(** A definition whose [max] is below 1, or whose token does not compile,
    leaves the registry as it is. *)
Lemma addOccurrenceCheck_unchanged (mgr : Manager) (chkName : string)
    (chkDef : Occurrence) :
  oc_Max chkDef < 1 ∨ Compile (oc_Token chkDef) = None →
  addOccurrenceCheck mgr chkName chkDef = mgr.
Proof.
  intros [Hmax | Hre]; unfold addOccurrenceCheck.
  - destruct (Compile (oc_Token chkDef)); [|done].
    destruct (Z.leb_spec 1 (oc_Max chkDef)); [lia|done].
  - by rewrite Hre.
Qed.

End Occurrence.

Section DispatchFacts.
Context `{RT : Runtime}.
Import check lint.

Lemma same_settings_refl f : same_settings f f.
Proof. by repeat split. Qed.

Lemma same_settings_trans f g h :
  same_settings f g → same_settings g h → same_settings f h.
Proof. unfold same_settings. intuition congruence. Qed.

Lemma add_alert_settings f a ctx txt lines pad :
  same_settings f (add_alert f a ctx txt lines pad).
Proof. unfold add_alert. by destruct (AddAlert _ _ _ _ _ _). Qed.

Lemma add_alerts_settings ctx txt lines pad alerts : ∀ f,
  same_settings f (foldl (fun f a => add_alert f a ctx txt lines pad) f alerts).
Proof.
  induction alerts as [|a alerts IH]; intros f; [apply same_settings_refl|].
  cbn [foldl]. eapply same_settings_trans; [|apply IH].
  apply add_alert_settings.
Qed.

Lemma passes_guards_settings l f f' blk hasCode name chk :
  same_settings f f' →
  passes_guards l f' blk hasCode name chk
  = passes_guards l f blk hasCode name chk.
Proof.
  intros (HB & HC & HM & _). unfold passes_guards. by rewrite HB, HC, HM.
Qed.

Lemma lintText_body_spec l blk lines pad hasCode f calls e f' calls' :
  lintText_body l blk lines pad hasCode (f, calls) e = Some (f', calls') →
  same_settings f f'
  ∧ if passes_guards l f blk hasCode e.1 e.2
    then ∃ c, calls' = calls ++ [c] ∧ call_of blk hasCode c e
    else calls' = calls.
Proof.
  destruct e as [name chk]. unfold lintText_body. cbn [fst snd].
  destruct (passes_guards l f blk hasCode name chk); [|by intros [= <- <-]].
  destruct (chk_Rule chk _ _) as [[alerts seqs]|]; [|done].
  cbn [mbind option_bind]. intros [= <- <-]. split.
  - eapply same_settings_trans; [|apply add_alerts_settings]. by repeat split.
  - eexists. split; [reflexivity|]. by split.
Qed.

Lemma lintText_loop_spec l blk lines pad hasCode order : ∀ f calls f' calls',
  lintText_loop l blk lines pad hasCode order (f, calls) = Some (f', calls') →
  same_settings f f'
  ∧ ∃ new, calls' = calls ++ new
      ∧ Forall2 (call_of blk hasCode) new
          (filter (λ e, passes_guards l f blk hasCode e.1 e.2 = true) order).
Proof.
  induction order as [|e order IH]; intros f calls f' calls';
    cbn [lintText_loop].
  - intros [= <- <-]. split; [apply same_settings_refl|].
    exists []. by rewrite app_nil_r.
  - destruct (lintText_body l blk lines pad hasCode (f, calls) e)
      as [[f1 calls1]|] eqn:Hbody; [|done].
    cbn [mbind option_bind]. intros Hloop.
    apply lintText_body_spec in Hbody as [Hs1 Hc1].
    apply IH in Hloop as (Hs2 & new & -> & Hnew).
    split; [by eapply same_settings_trans|].
    rewrite (list_filter_iff _
      (λ e, passes_guards l f blk hasCode e.1 e.2 = true)) in Hnew
      by (intros x; by rewrite (passes_guards_settings _ _ _ _ _ _ _ Hs1)).
    rewrite filter_cons.
    destruct (passes_guards l f blk hasCode e.1 e.2) eqn:Hg.
    + destruct Hc1 as (c & -> & Hc). exists (c :: new).
      rewrite <- app_assoc. split; [done|].
      rewrite decide_True by done. by constructor.
    + subst calls1. exists new. split; [done|].
      by rewrite decide_False by done.
Qed.

Lemma lintText_loop_total l blk lines pad hasCode order : ∀ st,
  (∀ e txt seqs, e ∈ order → is_Some (chk_Rule e.2 txt seqs)) →
  is_Some (lintText_loop l blk lines pad hasCode order st).
Proof.
  induction order as [|e order IH]; intros st Htot; cbn [lintText_loop];
    [done|].
  assert (Hb : is_Some (lintText_body l blk lines pad hasCode st e)).
  { destruct st as [f calls], e as [name chk]. unfold lintText_body.
    destruct (passes_guards _ _ _ _ _ _); [|done].
    destruct (Htot (name, chk) (rule_text hasCode chk blk) (Sequences f))
      as [[alerts seqs] Hr]; [left|].
    cbn [snd] in Hr. by rewrite Hr. }
  destruct Hb as [st' ->]. cbn [mbind option_bind].
  apply IH. intros e' txt seqs He'. apply Htot. by right.
Qed.

End DispatchFacts.

Section DispatchClaims.
Context `{RT : Runtime}.
Import check lint.



Lemma order_lookup (m : gmap string Check_) order name chk :
  order ≡ₚ map_to_list m → (name, chk) ∈ order ↔ m !! name = Some chk.
Proof. intros ->. apply elem_of_map_to_list. Qed.




End DispatchClaims.

Section Registry.
Context `{RT : Runtime}.
Import check lint.

(** Every call of [lintText] is a call of a registered rule. *)
Lemma lintText_calls_registered (l : Linter) order f blk lines pad f' calls c :
  order ≡ₚ map_to_list (AllChecks (CheckManager l)) →
  lintText l order f blk lines pad = Some (f', calls) →
  c ∈ calls →
  ∃ chk, AllChecks (CheckManager l) !! call_name c = Some chk
         ∧ call_txt c = rule_text (hasCode_of f) chk blk.
Proof.
  intros Hord Hrun Hc. unfold lintText in Hrun.
  apply lintText_loop_spec in Hrun as (_ & new & -> & Hnew).
  cbn [app] in Hc.
  destruct (proj1 (list_elem_of_lookup _ _) Hc) as [i Hi].
  destruct (Forall2_lookup_l _ _ _ _ _ Hnew Hi) as ([n chk] & He & Hn & Ht).
  apply list_elem_of_lookup_2, list_elem_of_filter in He as [_ He].
  cbn [fst snd] in *. exists chk. split; [|done].
  rewrite Hn. by apply (order_lookup (AllChecks (CheckManager l)) order).
Qed.

(** C10.  An Occurrence definition whose [max] is below 1, or whose token
    pattern does not compile, is not registered: the registry has no rule
    of its name afterwards, and no run of the dispatcher, on any block of
    any file, invokes a rule of that name, so that it emits no alert. *)
Theorem addOccurrenceCheck_never_registered (mgr : Manager)
    (chkName : string) (chkDef : Occurrence) :
  oc_Max chkDef < 1 ∨ Compile (oc_Token chkDef) = None →
  AllChecks mgr !! Name (oc_def chkDef) = None →
  let mgr' := addOccurrenceCheck mgr chkName chkDef in
  AllChecks mgr' !! Name (oc_def chkDef) = None
  ∧ ∀ cfg order f blk lines pad f' calls,
      order ≡ₚ map_to_list (AllChecks mgr') →
      lintText (mkLinter cfg mgr') order f blk lines pad = Some (f', calls) →
      ¬ invoked calls (Name (oc_def chkDef)).
Proof.
  intros Hbad Hfresh mgr'. subst mgr'.
  rewrite (addOccurrenceCheck_unchanged _ _ _ Hbad). split; [done|].
  intros cfg order f blk lines pad f' calls Hord Hrun (c & Hc & Hname).
  destruct (lintText_calls_registered (mkLinter cfg mgr) _ _ _ _ _ _ _ _
              Hord Hrun Hc) as (chk & Hreg & _).
  cbn [CheckManager] in Hreg. congruence.
Qed.

(** The registry entry that [updateAllChecks] writes. *)
Lemma updateAllChecks_lookup (mgr : Manager) (d : Definition_) (fn : ruleFn) :
  AllChecks (updateAllChecks mgr d fn) !! Name d
  = Some (mkCheck (Code d) (Extends d) (LevelToInt (Level d)) fn
            (mkSelector (check.Scope d))).
Proof. unfold updateAllChecks. cbn [AllChecks]. apply lookup_insert_eq. Qed.

End Registry.

Section Walk.
Import lint.

Lemma spawned_walkFn glob visits w :
  w ∈ spawned glob visits → walkFn glob w = Some w.
Proof.
  induction visits as [|v visits IH]; cbn [spawned]; [by intros ?%elem_of_nil|].
  destruct (walkFn glob v) as [v'|] eqn:Hv; [|done].
  assert (v' = v) as ->.
  { unfold walkFn in Hv. repeat case_match; congruence. }
  destruct (v_done v).
  - intros ->%list_elem_of_singleton. done.
  - intros [->|Hin]%elem_of_cons; [done|by apply IH].
Qed.

(** C9.  A visited file whose base name begins with a dot or with an
    underscore is never scheduled, whatever the glob pattern: no worker is
    started for it and it is not among the files that are delivered. *)
Theorem lintFiles_skips_ignored (glob : string → bool) (visits : list Visit)
    (v : Visit) :
  Go.HasPrefix (v_name v) "." = true ∨ Go.HasPrefix (v_name v) "_" = true →
  (v ∉ spawned glob visits) ∧ (v ∉ lintFiles glob visits).
Proof.
  intros Hpre.
  assert (Hno : v ∉ spawned glob visits).
  { intros Hin%spawned_walkFn. unfold walkFn in Hin.
    destruct (v_err v || v_isDir v); [done|].
    assert (HasAnyPrefix (v_name v) ignore = true) as Hany.
    { unfold HasAnyPrefix, ignore. cbn [existsb].
      destruct Hpre as [-> | ->]; [done|by rewrite orb_true_r]. }
    rewrite Hany, orb_true_r in Hin. done. }
  split; [done|]. unfold lintFiles. by intros [_ ?]%list_elem_of_filter.
Qed.

End Walk.

Section Substitution.
Import check.

Lemma append_cons (c : ascii) (s t : string) :
  String c s +:+ t = String c (s +:+ t).
Proof. reflexivity. Qed.

Lemma append_empty_r (s : string) : s +:+ "" = s.
Proof. induction s as [|c s IH]; [done|]. by rewrite append_cons, IH. Qed.

Lemma append_assoc (s t u : string) : (s +:+ t) +:+ u = s +:+ t +:+ u.
Proof. induction s as [|c s IH]; [done|]. by rewrite !append_cons, IH. Qed.

Lemma concat_empty_cons (x : string) (xs : list string) :
  String.concat "" (x :: xs) = x +:+ String.concat "" xs.
Proof. destruct xs; cbn; [by rewrite append_empty_r|done]. Qed.

(** What the loop keeps: the patterns that are not refused, in order. *)
Lemma swap_loop_spec (swap : list (string * string)) : ∀ tokens replacements,
  let kept := filter (λ p, swap_refused p.1 = false) swap in
  swap_loop swap tokens replacements
  = (tokens +:+ String.concat "" ((λ p, "(" +:+ p.1 +:+ ")|") <$> kept),
     replacements ++ kept.*2).
Proof.
  induction swap as [|[p rp] swap IH]; intros tokens replacements kept.
  - subst kept. cbn. by rewrite append_empty_r, app_nil_r.
  - subst kept. cbn [swap_loop]. rewrite filter_cons. cbn [fst].
    destruct (swap_refused p) eqn:Hp.
    + rewrite decide_False by done. apply IH.
    + rewrite decide_True by done. rewrite IH. cbn [fmap list_fmap snd].
      rewrite <- app_assoc. f_equal.
      rewrite concat_empty_cons, !append_assoc. reflexivity.
Qed.

Lemma swap_refused_false (p : string) :
  swap_refused p = false
  ↔ Go.Count p "(" = Go.Count p "?:" ∨ Go.Count p "(" = Go.Count p "\(".
Proof.
  unfold swap_refused.
  destruct (Z.eqb_spec (Go.Count p "(") (Go.Count p "?:"));
    destruct (Z.eqb_spec (Go.Count p "(") (Go.Count p "\("));
    cbn [negb andb]; intuition congruence.
Qed.

(** C3, as the code has it.  The loader puts into the compiled pattern and
    into the replacement table, in order, the swap patterns it keeps: it
    keeps every pattern whose count of [(] equals its count of [?:] or its
    count of [\(], and it refuses every pattern whose count of [(] differs
    from the count of [?:], from the count of [\(] and from their sum. *)
Theorem substitution_regex_kept (chkDef : Substitution) (e : string * string) :
  e ∈ su_Swap chkDef →
  let opens := Go.Count e.1 "(" in
  let groups := Go.Count e.1 "?:" in
  let escaped := Go.Count e.1 "\(" in
  ∃ kept,
    kept `sublist_of` su_Swap chkDef
    ∧ substitution_regex chkDef
      = (Go.Sprintf1
           (regex_template (su_Ignorecase chkDef) (su_Nonword chkDef))
           (Go.TrimRight1
              (String.concat "" ((λ p, "(" +:+ p.1 +:+ ")|") <$> kept)) "|"),
         kept.*2)
    ∧ (opens = groups ∨ opens = escaped → e ∈ kept)
    ∧ (opens ≠ groups ∧ opens ≠ escaped ∧ opens ≠ groups + escaped →
       e ∉ kept).
Proof.
  intros He opens groups escaped.
  exists (filter (λ p, swap_refused p.1 = false) (su_Swap chkDef)).
  split; [apply sublist_filter|]. split.
  - unfold substitution_regex. by rewrite swap_loop_spec.
  - split.
    + intros Hacc. apply list_elem_of_filter. split; [|done].
      by apply swap_refused_false.
    + intros (H1 & H2 & _) [Hacc _]%list_elem_of_filter.
      apply swap_refused_false in Hacc. subst opens groups escaped. tauto.
Qed.

(** Witness of the amended C3: a swap table with a plain word, a
    non-capturing group, an escaped parenthesis followed by an optional
    colon, and a capturing group. *)
Lemma substitution_regex_kept_witness :
  ("\(note\)?:", "note:") ∈ su_Swap Scenario.notes
  ∧ ∃ kept,
      kept `sublist_of` su_Swap Scenario.notes
      ∧ substitution_regex Scenario.notes
        = (Go.Sprintf1
             (regex_template (su_Ignorecase Scenario.notes)
                (su_Nonword Scenario.notes))
             (Go.TrimRight1
                (String.concat "" ((λ p, "(" +:+ p.1 +:+ ")|") <$> kept))
                "|"),
           kept.*2)
      ∧ (Go.Count "\(note\)?:" "(" = Go.Count "\(note\)?:" "?:"
         ∨ Go.Count "\(note\)?:" "(" = Go.Count "\(note\)?:" "\(" →
         ("\(note\)?:", "note:") ∈ kept)
      ∧ (Go.Count "\(note\)?:" "(" ≠ Go.Count "\(note\)?:" "?:"
         ∧ Go.Count "\(note\)?:" "(" ≠ Go.Count "\(note\)?:" "\("
         ∧ Go.Count "\(note\)?:" "("
           ≠ Go.Count "\(note\)?:" "?:" + Go.Count "\(note\)?:" "\(" →
         ("\(note\)?:", "note:") ∉ kept).
Proof.
  split; [compute_done|].
  apply (substitution_regex_kept Scenario.notes ("\(note\)?:", "note:")).
  compute_done.
Defined.

(** Counterexample to C3: the pattern [\(note\)?:] has one [(], one [?:]
    and one [\(], so that its count of [(] differs from the sum of the two
    other counts; the loader keeps it. *)
Lemma swap_keeps_unbalanced :
  Go.Count "\(note\)?:" "(" ≠ Go.Count "\(note\)?:" "?:"
                              + Go.Count "\(note\)?:" "\("
  ∧ swap_loop [("\(note\)?:", "note:")] "" [] = ("(\(note\)?:)|", ["note:"]).
Proof. split; [compute_done|reflexivity]. Qed.

(** The compiled pattern and the replacement table of the whole table. *)
Example notes_regex :
  substitution_regex Scenario.notes
  = ("\b(?:(see)|((?:foo|bar)baz)|(\(note\)?:))\b", ["cf."; "qux"; "note:"]).
Proof. reflexivity. Qed.

(** A pattern with one non-capturing group and one escaped parenthesis,
    whose count of [(] is the sum of the two other counts, is refused. *)
Example swap_refuses_mixed :
  Go.Count "(?:foo)\(bar\)" "("
  = Go.Count "(?:foo)\(bar\)" "?:" + Go.Count "(?:foo)\(bar\)" "\("
  ∧ swap_loop [("(?:foo)\(bar\)", "baz")] "" [] = ("", []).
Proof. split; reflexivity. Qed.

End Substitution.

(** *** Membership, locations and slices *)

Lemma StringInSlice_elem (a : string) (l : list string) :
  StringInSlice a l = true ↔ a ∈ l.
Proof.
  unfold StringInSlice. induction l as [|x l IH]; cbn [existsb].
  - split; [done|by intros ?%elem_of_nil].
  - rewrite orb_true_iff, IH, elem_of_cons.
    destruct (String.eqb_spec a x); intuition congruence.
Qed.

Lemma StringInSlice_not_elem (a : string) (l : list string) :
  StringInSlice a l = false ↔ a ∉ l.
Proof.
  rewrite <- StringInSlice_elem.
  destruct (StringInSlice a l); intuition congruence.
Qed.

Lemma index_loc_0 p : Go.index (loc_of p) 0 = Some p.1.
Proof. reflexivity. Qed.

Lemma index_loc_1 p : Go.index (loc_of p) 1 = Some p.2.
Proof. reflexivity. Qed.

Lemma slice_in_range txt p :
  in_range txt p → Go.slice txt p.1 p.2 = Some (text_at txt p).
Proof.
  intros (H0 & H1 & H2). unfold Go.slice.
  destruct (Z.leb_spec 0 p.1); [|lia].
  destruct (Z.leb_spec p.1 p.2); [|lia].
  destruct (Z.leb_spec p.2 (Z.of_nat (String.length txt))); [|lia].
  reflexivity.
Qed.

Section Conditional.
Context `{RT : Runtime}.
Import check.

Lemma makeAlert_in_range d txt p :
  in_range txt p → makeAlert d (loc_of p) txt = Some (alert_at d txt p).
Proof.
  intros Hp. unfold makeAlert. rewrite index_loc_0, index_loc_1.
  cbn [mbind option_bind]. rewrite (slice_in_range _ _ Hp). reflexivity.
Qed.

Lemma conditional_record_spec matches : ∀ seqs,
  conditional_record matches seqs = Some (seqs ++ first_captures matches).
Proof.
  induction matches as [|mat matches IH]; intros seqs;
    cbn [conditional_record first_captures omap list_omap].
  - by rewrite app_nil_r.
  - fold (omap (λ mat : list string, mat !! 1%nat) matches).
    fold (first_captures matches).
    destruct (Z.ltb_spec 1 (Z.of_nat (length mat))) as [Hlen|Hlen].
    + destruct (mat !! 1%nat) as [m1|] eqn:Hm.
      * replace (Go.index mat 1) with (Some m1) by (by rewrite <- Hm).
        cbn [mbind option_bind]. rewrite IH. by rewrite <- app_assoc.
      * apply lookup_ge_None in Hm. lia.
    + rewrite (proj2 (lookup_ge_None mat 1)) by lia. apply IH.
Qed.

Lemma conditional_alerts_spec chk txt seqs ps : ∀ alerts,
  Forall (in_range txt) ps →
  conditional_alerts chk txt seqs (loc_of <$> ps) alerts
  = Some (alerts ++ (alert_at (cd_def chk) txt
                       <$> filter (undefined_at chk seqs txt) ps)).
Proof.
  induction ps as [|p ps IH]; intros alerts Hps.
  - cbn. by rewrite app_nil_r.
  - rewrite fmap_cons. cbn [conditional_alerts].
    inversion Hps as [|? ? Hp Hps']; subst.
    rewrite index_loc_0, index_loc_1. cbn [mbind option_bind].
    rewrite (slice_in_range _ _ Hp). cbn [mbind option_bind].
    rewrite filter_cons.
    destruct (decide (undefined_at chk seqs txt p)) as [[Hs He]|Hdef].
    + apply StringInSlice_not_elem in Hs, He. rewrite Hs, He. cbn [negb andb].
      rewrite (makeAlert_in_range _ _ _ Hp).
      cbn [mbind option_bind]. rewrite IH by done.
      by rewrite <- app_assoc.
    + assert (negb (StringInSlice (text_at txt p) seqs)
              && negb (StringInSlice (text_at txt p) (cd_Exceptions chk))
              = false) as ->.
      { apply andb_false_iff. unfold undefined_at in Hdef.
        rewrite !negb_false_iff, !StringInSlice_elem.
        destruct (decide (text_at txt p ∈ seqs)); [by left|right].
        destruct (decide (text_at txt p ∈ cd_Exceptions chk)); [done|].
        exfalso. by apply Hdef. }
      by apply IH.
Qed.

(** C7.  For a Conditional rule, a block text and the file's sequence
    memory: the matcher first appends the first capture of every match of
    [second] to the memory, and then emits exactly one alert, at the
    match's location, for each match of [first] whose text is neither in
    the memory so extended nor among the rule's exceptions. *)
Theorem checkConditional_spec (txt : string) (chk : Conditional)
    (seqs : list string) (second first : Regexp) (ps : list (Z * Z)) :
  FindAllStringIndex first txt = loc_of <$> ps →
  Forall (in_range txt) ps →
  let seqs' := seqs ++ first_captures (FindAllStringSubmatch second txt) in
  checkConditional txt chk seqs [second; first]
  = Some (alert_at (cd_def chk) txt <$> filter (undefined_at chk seqs' txt) ps,
          seqs').
Proof.
  intros Hlocs Hps seqs'. unfold checkConditional.
  rewrite index_0, index_1. cbn [mbind option_bind].
  rewrite conditional_record_spec. cbn [mbind option_bind]. fold seqs'.
  rewrite Hlocs, conditional_alerts_spec by done. reflexivity.
Qed.

End Conditional.

(** *** Index vectors and their groups *)

Lemma last_loc_app loc gs1 gs2 :
  last_loc (last_loc loc gs1) gs2 = last_loc loc (gs1 ++ gs2).
Proof.
  unfold last_loc. destruct gs2 as [|g gs2 _] using rev_ind.
  - by rewrite app_nil_r.
  - by rewrite app_assoc, !last_snoc.
Qed.

Lemma pair_ind {A} (P : list A → Prop) :
  P [] → (∀ a, P [a]) → (∀ a b l, P l → P (a :: b :: l)) → ∀ l, P l.
Proof.
  intros H0 H1 H2. fix IH 1. intros [|a [|b l]]; [done..|].
  apply H2, IH.
Qed.

Lemma rem_even (k : nat) : Z.rem (Z.of_nat (2 * k)) 2 = 0.
Proof.
  replace (Z.of_nat (2 * k)) with (Z.of_nat k * 2) by lia.
  by apply Z.rem_mul.
Qed.

Lemma rem_odd (k : nat) : Z.rem (Z.of_nat (2 * k) + 1) 2 = 1.
Proof.
  rewrite Z.rem_mod_nonneg by lia.
  replace (Z.of_nat (2 * k) + 1) with (1 + Z.of_nat k * 2) by lia.
  by rewrite Z.mod_add.
Qed.

Lemma quot_even (k : nat) : Z.quot (Z.of_nat (2 * k)) 2 = Z.of_nat k.
Proof.
  replace (Z.of_nat (2 * k)) with (Z.of_nat k * 2) by lia.
  by apply Z.quot_mul.
Qed.

Lemma drop_pair {A} (submat : list A) (n : nat) a b rest :
  drop n submat = a :: b :: rest →
  submat !! n = Some a ∧ submat !! S n = Some b
  ∧ drop (S (S n)) submat = rest.
Proof.
  intros Hd. repeat split.
  - by rewrite <- (Nat.add_0_r n), <- lookup_drop, Hd.
  - by rewrite <- (Nat.add_1_r n), <- lookup_drop, Hd.
  - replace (S (S n)) with (n + 2)%nat by lia.
    by rewrite <- drop_drop, Hd.
Qed.

Section Consistency.
Context `{RT : Runtime}.
Import check.

Lemma consistency_inner_cons names submat idx mat rest loc seqs :
  consistency_inner names submat idx (mat :: rest) loc seqs
  = if negb (mat =? -1) && (0 <? idx) && (Z.rem idx 2 =? 0) then
      hi ← Go.index submat (idx + 1);
      n ← Go.index names (Z.quot idx 2);
      consistency_inner names submat (idx + 1) rest [mat; hi] (seqs ++ [n])
    else consistency_inner names submat (idx + 1) rest loc seqs.
Proof. reflexivity. Qed.

(** The end offset of a pair, at an odd position, is passed over. *)
Lemma consistency_inner_odd names submat (k : nat) hi rest loc seqs :
  consistency_inner names submat (Z.of_nat (2 * k) + 1) (hi :: rest) loc seqs
  = consistency_inner names submat (Z.of_nat (2 * S k)) rest loc seqs.
Proof.
  rewrite consistency_inner_cons, rem_odd. change (1 =? 0) with false.
  rewrite andb_false_r. f_equal. lia.
Qed.

Lemma consistency_inner_groups names submat : ∀ rest k loc seqs,
  (1 ≤ k)%nat → Nat.Even (length rest) → drop (2 * k) submat = rest →
  Forall (λ g, is_Some (names !! g.1)) (groups_from k rest) →
  consistency_inner names submat (Z.of_nat (2 * k)) rest loc seqs
  = Some (last_loc loc (groups_from k rest),
          seqs ++ group_names names (groups_from k rest)).
Proof.
  induction rest as [|a|lo hi rest IH] using pair_ind;
    intros k loc seqs Hk Heven Hdrop Hnames.
  - cbn. by rewrite app_nil_r.
  - destruct Heven as [n Hn]. cbn [length] in Hn. lia.
  - apply drop_pair in Hdrop as (Hlo & Hhi & Hdrop).
    assert (Heven' : Nat.Even (length rest)).
    { destruct Heven as [n Hn]. cbn [length] in Hn. exists (n - 1)%nat. lia. }
    replace (S (S (2 * k))) with (2 * S k)%nat in Hdrop by lia.
    rewrite consistency_inner_cons, rem_even. cbn [groups_from] in *.
    destruct (Z.ltb_spec 0 (Z.of_nat (2 * k))); [|lia].
    destruct (Z.eqb_spec lo (-1)) as [->|Hne]; cbn [negb andb app] in *.
    + rewrite consistency_inner_odd. by apply IH; [lia|..].
    + change (0 =? 0) with true. cbn match.
      replace (Go.index submat (Z.of_nat (2 * k) + 1)) with (Some hi).
      2:{ replace (Z.of_nat (2 * k) + 1) with (Z.of_nat (S (2 * k))) by lia.
          by rewrite index_nat. }
      cbn [mbind option_bind]. rewrite quot_even, index_nat.
      apply Forall_cons in Hnames as [[n Hn] Hnames']. cbn [fst] in Hn.
      rewrite Hn. cbn [mbind option_bind]. rewrite consistency_inner_odd.
      rewrite IH by (done || lia).
      unfold group_names. rewrite fmap_cons. cbn [fst]. rewrite Hn.
      cbn [default]. rewrite <- app_assoc. f_equal. f_equal.
      change [lo; hi] with (last_loc loc [(k, (lo, hi))]).
      by rewrite last_loc_app.
Qed.

Lemma consistency_inner_spec names submat loc seqs :
  Nat.Even (length submat) →
  Forall (λ g, is_Some (names !! g.1)) (matched_groups submat) →
  consistency_inner names submat 0 submat loc seqs
  = Some (last_loc loc (matched_groups submat),
          seqs ++ group_names names (matched_groups submat)).
Proof.
  intros Heven Hnames. unfold matched_groups in *.
  destruct submat as [|s [|e rest]].
  - cbn. by rewrite app_nil_r.
  - destruct Heven as [n Hn]. cbn [length] in Hn. lia.
  - rewrite consistency_inner_cons. change (0 <? 0) with false.
    rewrite andb_false_r. cbn match.
    change (0 + 1) with (Z.of_nat (2 * 0) + 1).
    rewrite consistency_inner_odd.
    change (drop 2 (s :: e :: rest)) with rest in *.
    apply consistency_inner_groups; [lia| |done|done].
    destruct Heven as [n Hn]. cbn [length] in Hn. exists (n - 1)%nat. lia.
Qed.

Lemma consistency_outer_spec names matches : ∀ loc seqs,
  Forall (λ v, Nat.Even (length v)) matches →
  Forall (λ g, is_Some (names !! g.1)) (all_groups matches) →
  consistency_outer names matches loc seqs
  = Some (last_loc loc (all_groups matches),
          seqs ++ group_names names (all_groups matches)).
Proof.
  induction matches as [|v matches IH]; intros loc seqs Heven Hnames.
  - cbn. by rewrite app_nil_r.
  - unfold all_groups in *. rewrite fmap_cons in *. cbn [concat] in *.
    apply Forall_app in Hnames as [Hn1 Hn2].
    inversion Heven as [|? ? He1 He2]; subst.
    cbn [consistency_outer]. rewrite consistency_inner_spec by done.
    cbn [mbind option_bind]. rewrite IH by done.
    unfold group_names. by rewrite last_loc_app, fmap_app, app_assoc.
Qed.

End Consistency.

Lemma AllStringsInSlice_Forall (strings slice : list string) :
  AllStringsInSlice strings slice = true ↔ Forall (λ s, s ∈ slice) strings.
Proof.
  unfold AllStringsInSlice. rewrite forallb_forall, Forall_forall.
  split; intros H x Hx.
  - apply StringInSlice_elem, H. by apply list_elem_of_In.
  - apply StringInSlice_elem, H. by apply list_elem_of_In.
Qed.

Lemma all_groups_nil matches :
  Forall (λ v, matched_groups v ≠ []) matches →
  all_groups matches = [] → matches = [].
Proof.
  intros Hne Hnil. destruct matches as [|v matches]; [done|].
  inversion Hne as [|? ? Hv _]; subst. unfold all_groups in Hnil.
  rewrite fmap_cons in Hnil. cbn [concat] in Hnil.
  by apply app_eq_nil in Hnil as [? _].
Qed.

Section ConsistencyClaim.
Context `{RT : Runtime}.
Import check.

(** C1, as the code has it.  One evaluation of a Consistency rule on a
    block appends the names of the groups that took part in the block's
    matches to the sequence memory and emits at most one alert: exactly one
    when the block has a match and the memory then holds both alternatives,
    located at the last such group of the block, and none otherwise. *)
Theorem checkConsistency_block (txt : string) (chk : Consistency)
    (seqs : list string) (r : Regexp) (opts : list string) :
  let matches := FindAllStringSubmatchIndex r txt in
  let groups := all_groups matches in
  let seqs' := seqs ++ group_names (SubexpNames r) groups in
  Forall (λ v, Nat.Even (length v)) matches →
  Forall (λ v, matched_groups v ≠ []) matches →
  Forall (λ g, is_Some (SubexpNames r !! g.1) ∧ in_range txt g.2) groups →
  checkConsistency txt chk seqs r opts
  = Some (consistency_alerts chk txt opts seqs' groups, seqs')
  ∧ (length (consistency_alerts chk txt opts seqs' groups) ≤ 1)%nat.
Proof.
  intros matches groups seqs' Heven Hpart Hgroups. split.
  - unfold checkConsistency. fold matches.
    rewrite consistency_outer_spec; [|done|].
    2:{ eapply Forall_impl; [exact Hgroups|]. by intros g [? _]. }
    cbn [mbind option_bind]. fold groups seqs'.
    unfold consistency_alerts, last_loc.
    destruct (last groups) as [g|] eqn:Hlast.
    + assert (matches ≠ []) as Hm.
      { intros E. subst groups. rewrite E in Hlast. done. }
      rewrite bool_decide_eq_false_2 by done. cbn [negb andb].
      destruct (decide (Forall (λ o, o ∈ seqs') opts)) as [Hall|Hnot].
      * rewrite (proj2 (AllStringsInSlice_Forall _ _) Hall).
        rewrite makeAlert_in_range; [done|].
        rewrite Forall_forall in Hgroups.
        by apply Hgroups, last_Some_elem_of.
      * destruct (AllStringsInSlice opts seqs') eqn:E; [|done].
        by apply AllStringsInSlice_Forall in E.
    + apply last_None in Hlast. apply all_groups_nil in Hlast; [|done].
      by rewrite bool_decide_eq_true_2.
  - unfold consistency_alerts. destruct (last groups); [|cbn; lia].
    destruct (decide _); cbn; lia.
Qed.

End ConsistencyClaim.

Section SubstitutionClaim.
Context `{RT : Runtime}.
Import check.

Lemma substitution_inner_cons chk txt repl submat idx mat rest pos alerts :
  substitution_inner chk txt repl submat idx (mat :: rest) pos alerts
  = if negb (mat =? -1) && (0 <? idx) && (Z.rem idx 2 =? 0) then
      hi ← Go.index submat (idx + 1);
      let loc := [mat; hi] in
      expected ← Go.index repl (Z.quot idx 2 - 1);
      s ← Go.slice txt mat hi;
      let observed := TrimSpace s in
      if negb (String.eqb expected observed) then
        let pos' :=
          if negb (String.eqb (su_POS chk) "")
          then CheckPOS loc (su_POS chk) txt else pos in
        let d := su_def chk in
        let '(m, ds) :=
          formatMessages (Message d) (Description d) [expected; observed] in
        let a := mkAlert (Name d) ds pos' (Link d) m (Level d) loc in
        substitution_inner chk txt repl submat (idx + 1) rest pos'
          (alerts ++ [a])
      else substitution_inner chk txt repl submat (idx + 1) rest pos alerts
    else substitution_inner chk txt repl submat (idx + 1) rest pos alerts.
Proof. reflexivity. Qed.

Lemma substitution_inner_odd chk txt repl submat (k : nat) hi rest pos alerts :
  substitution_inner chk txt repl submat (Z.of_nat (2 * k) + 1) (hi :: rest)
    pos alerts
  = substitution_inner chk txt repl submat (Z.of_nat (2 * S k)) rest pos alerts.
Proof.
  rewrite substitution_inner_cons, rem_odd. change (1 =? 0) with false.
  rewrite andb_false_r. f_equal. lia.
Qed.

Lemma substitution_inner_groups chk txt repl submat : ∀ rest k pos alerts,
  (1 ≤ k)%nat → Nat.Even (length rest) → drop (2 * k) submat = rest →
  Forall (usable txt repl) (groups_from k rest) →
  (su_POS chk = "" → pos = false) →
  ∃ pos',
    substitution_inner chk txt repl submat (Z.of_nat (2 * k)) rest pos alerts
    = Some (pos', alerts ++ omap (substitution_alert chk txt repl)
                              (groups_from k rest))
    ∧ (su_POS chk = "" → pos' = false).
Proof.
  induction rest as [|a|lo hi rest IH] using pair_ind;
    intros k pos alerts Hk Heven Hdrop Hgroups Hpos.
  - exists pos. cbn. by rewrite app_nil_r.
  - destruct Heven as [n Hn]. cbn [length] in Hn. lia.
  - apply drop_pair in Hdrop as (Hlo & Hhi & Hdrop).
    assert (Heven' : Nat.Even (length rest)).
    { destruct Heven as [n Hn]. cbn [length] in Hn. exists (n - 1)%nat. lia. }
    replace (S (S (2 * k))) with (2 * S k)%nat in Hdrop by lia.
    rewrite substitution_inner_cons, rem_even. cbn [groups_from] in *.
    destruct (Z.ltb_spec 0 (Z.of_nat (2 * k))); [|lia].
    destruct (Z.eqb_spec lo (-1)) as [->|Hne]; cbn [negb andb app] in *.
    + rewrite substitution_inner_odd. by apply IH; [lia|..].
    + change (0 =? 0) with true. cbn match.
      replace (Go.index submat (Z.of_nat (2 * k) + 1)) with (Some hi).
      2:{ replace (Z.of_nat (2 * k) + 1) with (Z.of_nat (S (2 * k))) by lia.
          by rewrite index_nat. }
      cbn [mbind option_bind]. rewrite quot_even.
      replace (Z.of_nat k - 1) with (Z.of_nat (k - 1)) by lia.
      rewrite index_nat.
      apply Forall_cons in Hgroups as [[[e He] Hr] Hgroups'].
      cbn [fst snd] in He, Hr. rewrite He. cbn [mbind option_bind].
      pose proof (slice_in_range txt (lo, hi) Hr) as Hs.
      cbn [fst snd] in Hs. rewrite Hs. cbn [mbind option_bind].
      cbn [omap list_omap].
      fold (omap (substitution_alert chk txt repl) (groups_from (S k) rest)).
      unfold substitution_alert at 1, expected_of, observed_at.
      cbn [fst snd]. rewrite He. cbn [from_option]. unfold id.
      destruct (String.eqb e (TrimSpace (text_at txt (lo, hi))));
        cbn [negb]; cbn match.
      * rewrite substitution_inner_odd. by apply IH; [lia|..].
      * cbn [formatMessages]. rewrite substitution_inner_odd.
        set (pos' := if negb (String.eqb (su_POS chk) "")
                     then CheckPOS [lo; hi] (su_POS chk) txt else pos).
        assert (Hh : pos' = hide_of chk txt (lo, hi)).
        { unfold pos', hide_of. destruct (String.eqb_spec (su_POS chk) "");
            cbn [negb]; [by apply Hpos|done]. }
        destruct (IH (S k) pos'
                    (alerts ++ [mkAlert (Name (su_def chk))
                       (FormatMessage (Description (su_def chk))
                          [e; TrimSpace (text_at txt (lo, hi))]) pos'
                       (Link (su_def chk))
                       (FormatMessage (Message (su_def chk))
                          [e; TrimSpace (text_at txt (lo, hi))])
                       (Level (su_def chk)) [lo; hi]]))
          as (pos'' & Hrun & Hpos''); [lia|done|done|done| |].
        { intros HP. rewrite Hh. unfold hide_of. by rewrite HP. }
        exists pos''. split; [|done]. rewrite Hrun, <- app_assoc, Hh.
        reflexivity.
Qed.

Lemma substitution_inner_spec chk txt repl submat pos alerts :
  Nat.Even (length submat) →
  Forall (usable txt repl) (matched_groups submat) →
  (su_POS chk = "" → pos = false) →
  ∃ pos',
    substitution_inner chk txt repl submat 0 submat pos alerts
    = Some (pos', alerts ++ omap (substitution_alert chk txt repl)
                              (matched_groups submat))
    ∧ (su_POS chk = "" → pos' = false).
Proof.
  intros Heven Hgroups Hpos. unfold matched_groups in *.
  destruct submat as [|s [|e rest]].
  - exists pos. cbn. by rewrite app_nil_r.
  - destruct Heven as [n Hn]. cbn [length] in Hn. lia.
  - rewrite substitution_inner_cons. change (0 <? 0) with false.
    rewrite andb_false_r. cbn match.
    change (0 + 1) with (Z.of_nat (2 * 0) + 1).
    rewrite substitution_inner_odd.
    change (drop 2 (s :: e :: rest)) with rest in *.
    apply substitution_inner_groups; [lia| |done|done|done].
    destruct Heven as [n Hn]. cbn [length] in Hn. exists (n - 1)%nat. lia.
Qed.

Lemma substitution_outer_spec chk txt repl matches : ∀ pos alerts,
  Forall (λ v, Nat.Even (length v)) matches →
  Forall (usable txt repl) (all_groups matches) →
  (su_POS chk = "" → pos = false) →
  substitution_outer chk txt repl matches pos alerts
  = Some (alerts ++ omap (substitution_alert chk txt repl)
                      (all_groups matches)).
Proof.
  induction matches as [|v matches IH]; intros pos alerts Heven Hgroups Hpos.
  - cbn. by rewrite app_nil_r.
  - unfold all_groups in *. rewrite fmap_cons in *. cbn [concat] in *.
    apply Forall_app in Hgroups as [Hg1 Hg2].
    inversion Heven as [|? ? He1 He2]; subst.
    cbn [substitution_outer].
    destruct (substitution_inner_spec chk txt repl v pos alerts He1 Hg1 Hpos)
      as (pos' & -> & Hpos').
    cbn [mbind option_bind]. rewrite IH by done.
    by rewrite omap_app, app_assoc.
Qed.

(** C5.  For a Substitution rule and every text: the alerts are those of
    the capture groups that took part in a match and whose trimmed text
    differs from the replacement assigned to the group, one each and in
    order; a group whose trimmed text equals its replacement has no
    alert. *)
Theorem checkSubstitution_spec (txt : string) (chk : Substitution)
    (r : Regexp) (repl : list string) :
  let matches := FindAllStringSubmatchIndex r txt in
  let groups := if MatchString r txt then all_groups matches else [] in
  Forall (λ v, Nat.Even (length v)) matches →
  Forall (usable txt repl) (all_groups matches) →
  checkSubstitution txt chk r repl
  = Some (omap (substitution_alert chk txt repl) groups)
  ∧ ∀ g, g ∈ groups →
      (substitution_alert chk txt repl g = None
       ↔ expected_of repl g.1 = observed_at txt g.2)
      ∧ ∀ a, substitution_alert chk txt repl g = Some a →
             Span a = loc_of g.2
             ∧ expected_of repl g.1 ≠ observed_at txt g.2.
Proof.
  intros matches groups Heven Hgroups. split.
  - unfold checkSubstitution. subst groups. fold matches.
    destruct (MatchString r txt); cbn [negb]; [|done].
    by rewrite substitution_outer_spec.
  - intros g _. unfold substitution_alert.
    destruct (String.eqb_spec (expected_of repl g.1) (observed_at txt g.2));
      (split; [split; congruence|]).
    + intros a [=].
    + intros a [= <-]. by split.
Qed.

End SubstitutionClaim.

(* ================================================================== *)
(** ** The reference run time is well formed                           *)
(* ================================================================== *)

Section Reference.
Import check lint.

Lemma search_length c : ∀ rest pos prev mt,
  RefRegex.search c pos prev rest = Some mt → (2 ≤ length mt)%nat.
Proof.
  induction rest as [|ch rest IH]; intros pos prev mt; cbn [RefRegex.search];
    destruct (RefRegex.run _ _ _ _) as [s|].
  - intros [= <-]. unfold RefRegex.vector. rewrite length_app. cbn. lia.
  - done.
  - intros [= <-]. unfold RefRegex.vector. rewrite length_app. cbn. lia.
  - apply IH.
Qed.

Lemma all_matches_length c txt : ∀ fuel pos e,
  Forall (λ mt, (2 ≤ length mt)%nat) (RefRegex.all_matches fuel c txt pos e).
Proof.
  induction fuel as [|fuel IH]; intros pos e; cbn [RefRegex.all_matches];
    [done|].
  destruct (_ <? _)%nat; [done|].
  destruct (RefRegex.execute c txt pos) as [mt|] eqn:Hex; [|done].
  apply Forall_app. split; [|apply IH].
  destruct (negb _); [|done]. apply Forall_singleton.
  by eapply search_length.
Qed.

Lemma find_all_index_pairs c txt :
  Forall is_pair (RefRegex.find_all_index c txt).
Proof.
  unfold RefRegex.find_all_index, RefRegex.find_all.
  apply Forall_fmap. eapply Forall_impl; [apply all_matches_length|].
  intros mt Hlen. cbn beta in Hlen. unfold compose, is_pair.
  rewrite length_take. lia.
Qed.

Lemma Forall_even_check (l : list (list Z)) :
  forallb (λ v, Nat.even (length v)) l = true →
  Forall (λ v, Nat.Even (length v)) l.
Proof.
  rewrite forallb_forall, Forall_forall. intros H v Hv.
  apply Nat.even_spec, H. by apply list_elem_of_In.
Qed.

End Reference.

Section OccurrenceTotal.
Context `{RT : Runtime}.
Import check.

Lemma checkOccurrence_total txt chk r lim :
  0 ≤ lim → Forall is_pair (FindAllStringIndex r txt) →
  is_Some (checkOccurrence txt chk r lim).
Proof.
  intros Hlim. unfold checkOccurrence.
  generalize (FindAllStringIndex r txt). intros locs Hwf.
  destruct (Z.ltb_spec lim (Z.of_nat (length locs))); [|done].
  destruct locs as [|first rest]; [cbn [length] in *; lia|].
  apply Forall_cons in Hwf as Hwf'. destruct Hwf' as [Hfirst _].
  apply is_pair_inv in Hfirst as (lo & e & ->).
  rewrite index_0. cbn [mbind option_bind]. rewrite index_0.
  cbn [mbind option_bind]. rewrite index_last by done.
  destruct (last (([lo; e] : list Z) :: rest)) as [l|] eqn:Hlast;
    [|apply last_None in Hlast; discriminate].
  rewrite Forall_forall in Hwf.
  destruct (is_pair_inv l (Hwf l (last_Some_elem_of _ _ Hlast)))
    as (s & hi & ->).
  cbn [mbind option_bind]. by rewrite index_1.
Qed.

End OccurrenceTotal.

(* ================================================================== *)
(** ** The scenarios                                                   *)
(* ================================================================== *)

Section Scenarios.
Import check lint Scenario.

Lemma very_mgr_lookup name chk :
  AllChecks very_mgr !! name = Some chk →
  chk_Rule chk
  = pure_rule
      (λ text, checkOccurrence (RT := Ref.runtime) text (very 2) very_re 2).
Proof.
  change very_mgr with
    (updateAllChecks (RT := Ref.runtime) empty_mgr (oc_def (very 2))
       (pure_rule
          (λ text, checkOccurrence (RT := Ref.runtime) text (very 2)
                     very_re 2))).
  unfold updateAllChecks. cbn [AllChecks empty_mgr].
  rewrite lookup_insert. case_decide; [|by rewrite lookup_empty].
  by intros [= <-].
Qed.

Lemma very_total : rules_total very_linter.
Proof.
  intros name chk txt seqs Hreg. cbn [CheckManager very_linter] in Hreg.
  rewrite (very_mgr_lookup _ _ Hreg). unfold pure_rule.
  destruct (checkOccurrence_total (RT := Ref.runtime) txt (very 2) very_re 2)
    as [alerts ->]; [lia|apply find_all_index_pairs|done].
Qed.


(** The per-extension override is resolved first: a rule switched off
    for the file's extension is not invoked, though it is switched on
    globally and its style is a base style of the file. *)
Example per_extension_override_first :
  (λ r : File * list Call, call_name <$> r.2)
    <$> lintText (RT := Ref.runtime) very_linter_on
          (map_to_list (AllChecks (CheckManager very_linter_on)))
          md_file_off very_block 1 0
  = Some [].
Proof. vm_compute. reflexivity. Qed.


(** The rule with the code flag is run on the raw text of the block, in
    which the fourth [very] is in a code span. *)
Example very_on_raw_text :
  (λ r : File * list Call, call_txt <$> r.2)
    <$> lintText (RT := Ref.runtime) very_linter
          (map_to_list (AllChecks (CheckManager very_linter)))
          md_file very_block 1 0
  = Some ["very very very `very` big"].
Proof. vm_compute. reflexivity. Qed.

(** Witness of C6: four matches against a limit of two. *)
Lemma checkOccurrence_spec_witness :
  0 ≤ 2
  ∧ Forall is_pair
      (FindAllStringIndex (Runtime := Ref.runtime) very_re
         "very very very very big")
  ∧ (Z.of_nat (length (FindAllStringIndex (Runtime := Ref.runtime) very_re
                         "very very very very big")) ≤ 2 →
     checkOccurrence (RT := Ref.runtime) "very very very very big" (very 2)
       very_re 2 = Some [])
  ∧ (2 < Z.of_nat (length (FindAllStringIndex (Runtime := Ref.runtime)
                             very_re "very very very very big")) →
     ∃ lo e hi s,
       head (FindAllStringIndex (Runtime := Ref.runtime) very_re
               "very very very very big") = Some [lo; e]
       ∧ last (FindAllStringIndex (Runtime := Ref.runtime) very_re
                 "very very very very big") = Some [s; hi]
       ∧ checkOccurrence (RT := Ref.runtime) "very very very very big"
           (very 2) very_re 2 = Some [occurrence_alert (very 2) lo hi]).
Proof.
  split; [lia|]. split; [apply find_all_index_pairs|].
  apply (checkOccurrence_spec (RT := Ref.runtime)
           "very very very very big" (very 2) very_re 2);
    [lia|apply find_all_index_pairs].
Defined.

(** The alert of that scenario spans the first to the last [very]. *)
Example very_four_times :
  checkOccurrence (RT := Ref.runtime) "very very very very big" (very 2)
    very_re 2 = Some [occurrence_alert (very 2) 0 19].
Proof. vm_compute. reflexivity. Qed.

(** Witness of C10: a limit of 0. *)
Lemma addOccurrenceCheck_never_registered_witness :
  (oc_Max (very 0) < 1
   ∨ Compile (Runtime := Ref.runtime) (oc_Token (very 0)) = None)
  ∧ AllChecks empty_mgr !! Name (oc_def (very 0)) = None
  ∧ AllChecks (addOccurrenceCheck (RT := Ref.runtime) empty_mgr "Style.Very"
                 (very 0)) !! Name (oc_def (very 0)) = None
  ∧ ∀ cfg order f blk lines pad f' calls,
      order ≡ₚ map_to_list
                 (AllChecks (addOccurrenceCheck (RT := Ref.runtime) empty_mgr
                               "Style.Very" (very 0))) →
      lintText (RT := Ref.runtime)
        (mkLinter cfg (addOccurrenceCheck (RT := Ref.runtime) empty_mgr
                         "Style.Very" (very 0)))
        order f blk lines pad = Some (f', calls) →
      ¬ invoked calls (Name (oc_def (very 0))).
Proof.
  split; [left; cbn; lia|]. split; [reflexivity|].
  apply (addOccurrenceCheck_never_registered (RT := Ref.runtime) empty_mgr
           "Style.Very" (very 0)); [left; cbn; lia|reflexivity].
Defined.

(** Witness of C9: a hidden file in a walk of three files. *)
Lemma lintFiles_skips_ignored_witness :
  (Go.HasPrefix (v_name hidden) "." = true
   ∨ Go.HasPrefix (v_name hidden) "_" = true)
  ∧ (hidden ∉ spawned (λ _, true) [hidden; partial; readme])
  ∧ (hidden ∉ lintFiles (λ _, true) [hidden; partial; readme]).
Proof.
  split; [left; reflexivity|].
  apply (lintFiles_skips_ignored (λ _, true) [hidden; partial; readme] hidden).
  left. reflexivity.
Defined.

(** Of the three files, only the document is linted. *)
Example walk_of_three :
  lintFiles (λ _, true) [hidden; partial; readme] = [readme].
Proof. reflexivity. Qed.

End Scenarios.

Section MatcherScenarios.
Import check lint Scenario.

(** Witness of C7: the abbreviation is defined later in the same block. *)
Lemma checkConditional_spec_witness :
  FindAllStringIndex (Runtime := Ref.runtime) abbr_first who_text
  = loc_of <$> [(4, 7); (47, 50)]
  ∧ Forall (in_range who_text) [(4, 7); (47, 50)]
  ∧ checkConditional (RT := Ref.runtime) who_text abbr []
      [abbr_second; abbr_first]
    = Some
        (alert_at (RT := Ref.runtime) (cd_def abbr) who_text
         <$> filter
               (undefined_at abbr
                  ([] ++ first_captures
                           (FindAllStringSubmatch (Runtime := Ref.runtime)
                              abbr_second who_text))
                  who_text)
               [(4, 7); (47, 50)],
         [] ++ first_captures
                 (FindAllStringSubmatch (Runtime := Ref.runtime) abbr_second
                    who_text)).
Proof.
  split; [vm_compute; reflexivity|]. split; [compute_done|].
  apply (checkConditional_spec (RT := Ref.runtime) who_text abbr []
           abbr_second abbr_first [(4, 7); (47, 50)]);
    [vm_compute; reflexivity|compute_done].
Defined.

(** The two texts of the scenario: defined in the block, and not. *)
Example abbreviation_defined :
  checkConditional (RT := Ref.runtime) who_text abbr []
    [abbr_second; abbr_first] = Some ([], ["WHO"]).
Proof. vm_compute. reflexivity. Qed.

Example abbreviation_undefined :
  checkConditional (RT := Ref.runtime) "The WHO met." abbr []
    [abbr_second; abbr_first]
  = Some ([alert_at (RT := Ref.runtime) (cd_def abbr) "The WHO met." (4, 7)],
          []).
Proof. vm_compute. reflexivity. Qed.

(** Witness of C5: [utilize] differs from its replacement, [use] does not. *)
Lemma checkSubstitution_spec_witness :
  Forall (λ v, Nat.Even (length v))
    (FindAllStringSubmatchIndex (Runtime := Ref.runtime) swaps_re
       "We utilize tools we use.")
  ∧ Forall (usable "We utilize tools we use." ["use"; "use"])
      (all_groups
         (FindAllStringSubmatchIndex (Runtime := Ref.runtime) swaps_re
            "We utilize tools we use."))
  ∧ checkSubstitution (RT := Ref.runtime) "We utilize tools we use." swaps
      swaps_re ["use"; "use"]
    = Some
        (omap
           (substitution_alert (RT := Ref.runtime) swaps
              "We utilize tools we use." ["use"; "use"])
           (if MatchString (Runtime := Ref.runtime) swaps_re
                 "We utilize tools we use."
            then all_groups
                   (FindAllStringSubmatchIndex (Runtime := Ref.runtime)
                      swaps_re "We utilize tools we use.")
            else []))
  ∧ ∀ g,
      g ∈ (if MatchString (Runtime := Ref.runtime) swaps_re
                "We utilize tools we use."
           then all_groups
                  (FindAllStringSubmatchIndex (Runtime := Ref.runtime)
                     swaps_re "We utilize tools we use.")
           else []) →
      (substitution_alert (RT := Ref.runtime) swaps "We utilize tools we use."
         ["use"; "use"] g = None
       ↔ expected_of ["use"; "use"] g.1
         = observed_at (RT := Ref.runtime) "We utilize tools we use." g.2)
      ∧ ∀ a,
          substitution_alert (RT := Ref.runtime) swaps
            "We utilize tools we use." ["use"; "use"] g = Some a →
          Span a = loc_of g.2
          ∧ expected_of ["use"; "use"] g.1
            ≠ observed_at (RT := Ref.runtime) "We utilize tools we use." g.2.
Proof.
  split; [apply Forall_even_check; vm_compute; reflexivity|].
  split; [compute_done|].
  apply (checkSubstitution_spec (RT := Ref.runtime) "We utilize tools we use."
           swaps swaps_re ["use"; "use"]);
    [apply Forall_even_check; vm_compute; reflexivity|compute_done].
Defined.

(** In that text only [utilize] is reported. *)
Example utilize_reported :
  Span <$> default []
             (checkSubstitution (RT := Ref.runtime) "We utilize tools we use."
                swaps swaps_re ["use"; "use"])
  = [[3; 10]].
Proof. vm_compute. reflexivity. Qed.

(** Witness of the amended C1: a block with both spellings. *)
Lemma checkConsistency_block_witness :
  Forall (λ v, Nat.Even (length v))
    (FindAllStringSubmatchIndex (Runtime := Ref.runtime) spelling_re
       "color colour")
  ∧ Forall (λ v, matched_groups v ≠ [])
      (FindAllStringSubmatchIndex (Runtime := Ref.runtime) spelling_re
         "color colour")
  ∧ Forall
      (λ g, is_Some (SubexpNames (Runtime := Ref.runtime) spelling_re !! g.1)
            ∧ in_range "color colour" g.2)
      (all_groups
         (FindAllStringSubmatchIndex (Runtime := Ref.runtime) spelling_re
            "color colour"))
  ∧ checkConsistency (RT := Ref.runtime) "color colour" spelling []
      spelling_re ["Spelling2"; "Spelling3"]
    = Some
        (consistency_alerts (RT := Ref.runtime) spelling "color colour"
           ["Spelling2"; "Spelling3"]
           ([] ++ group_names (SubexpNames (Runtime := Ref.runtime) spelling_re)
                    (all_groups
                       (FindAllStringSubmatchIndex (Runtime := Ref.runtime)
                          spelling_re "color colour")))
           (all_groups
              (FindAllStringSubmatchIndex (Runtime := Ref.runtime)
                 spelling_re "color colour")),
         [] ++ group_names (SubexpNames (Runtime := Ref.runtime) spelling_re)
                 (all_groups
                    (FindAllStringSubmatchIndex (Runtime := Ref.runtime)
                       spelling_re "color colour")))
  ∧ (length
       (consistency_alerts (RT := Ref.runtime) spelling "color colour"
          ["Spelling2"; "Spelling3"]
          ([] ++ group_names (SubexpNames (Runtime := Ref.runtime) spelling_re)
                   (all_groups
                      (FindAllStringSubmatchIndex (Runtime := Ref.runtime)
                         spelling_re "color colour")))
          (all_groups
             (FindAllStringSubmatchIndex (Runtime := Ref.runtime)
                spelling_re "color colour"))) ≤ 1)%nat.
Proof.
  split; [apply Forall_even_check; vm_compute; reflexivity|].
  split; [compute_done|]. split; [compute_done|].
  apply (checkConsistency_block (RT := Ref.runtime) "color colour" spelling []
           spelling_re ["Spelling2"; "Spelling3"]);
    [apply Forall_even_check; vm_compute; reflexivity
    |compute_done|compute_done].
Defined.

(** Counterexample to C1: on a file whose first block has both spellings
    and whose second block has one of them, the rule of the pair emits two
    alerts, one in each block. *)
Lemma consistency_alerts_twice :
  ¬ (∀ blocks alerts seqs,
       run_blocks spelling_mgr "Style.Spelling.color" blocks [] 
       = Some (alerts, seqs) →
       (length alerts ≤ 1)%nat).
Proof.
  intros H.
  destruct (run_blocks spelling_mgr "Style.Spelling.color"
              ["color colour"; "color"] []) as [[alerts seqs]|] eqn:E;
    [|vm_compute in E; discriminate E].
  specialize (H _ _ _ E). vm_compute in E.
  injection E as <- _. cbn [length] in H. lia.
Qed.

(** The two alerts: at the last match of the first block, and at the match
    of the second block. *)
Example consistency_two_blocks :
  (λ r : list Alert * list string, Span <$> r.1)
    <$> run_blocks spelling_mgr "Style.Spelling.color"
          ["color colour"; "color"] []
  = Some [[6; 12]; [0; 5]].
Proof. vm_compute. reflexivity. Qed.

(** Counterexample to C4: with [max = 1] the text [the the best] yields no
    alert. *)
Lemma repetition_max_1_no_alert :
  run_rule (repetition_mgr 1) "vale.Repetition" "the the best" []
  = Some ([], []).
Proof. vm_compute. reflexivity. Qed.

(** C4, as the code has it.  For the Repetition rule with tokens [\w+] and
    ignorecase: with [max = 0] the text [the the best] yields exactly one
    alert, spanning the two [the] tokens, and [the best] yields none; with
    [max = 1] neither text yields an alert, a token having to be repeated
    more than [max] times, as in [the the the best]. *)
Theorem repetition_scenario :
  repetition_regex (repetition_rule 1) = "(?i)(\w+)"
  ∧ run_rule (repetition_mgr 0) "vale.Repetition" "the the best" []
    = Some ([mkAlert "vale.Repetition" "" false "" "'the' is repeated!"
               "warning" [0; 7]], [])
  ∧ run_rule (repetition_mgr 0) "vale.Repetition" "the best" []
    = Some ([], [])
  ∧ run_rule (repetition_mgr 1) "vale.Repetition" "the the best" []
    = Some ([], [])
  ∧ run_rule (repetition_mgr 1) "vale.Repetition" "the best" []
    = Some ([], [])
  ∧ run_rule (repetition_mgr 1) "vale.Repetition" "the the the best" []
    = Some ([mkAlert "vale.Repetition" "" false "" "'the' is repeated!"
               "warning" [4; 11]], []).
Proof. repeat split; vm_compute; reflexivity. Qed.

End MatcherScenarios.

(* ================================================================== *)
(** ** Further properties of the matchers                              *)
(* ================================================================== *)

Lemma slice_Some txt lo hi s :
  Go.slice txt lo hi = Some s → in_range txt (lo, hi) ∧ s = text_at txt (lo, hi).
Proof.
  unfold Go.slice, in_range, text_at. cbn [fst snd].
  destruct (Z.leb_spec 0 lo); [|done].
  destruct (Z.leb_spec lo hi); [|done].
  destruct (Z.leb_spec hi (Z.of_nat (String.length txt))); [|done].
  cbn [andb]. by intros [= <-].
Qed.

Lemma index_0_Some {A} (l : list A) x :
  Go.index l 0 = Some x → ∃ rest, l = x :: rest.
Proof. destruct l as [|y rest]; [done|]. intros [= ->]. by exists rest. Qed.

Lemma index_1_Some {A} (x : A) (l : list A) y :
  Go.index (x :: l) 1 = Some y → ∃ rest, l = y :: rest.
Proof. destruct l as [|z rest]; [done|]. intros [= ->]. by exists rest. Qed.

Lemma substring_full (s : string) :
  String.substring 0 (String.length s) s = s.
Proof. induction s as [|c s IH]; [done|]. cbn. by rewrite IH. Qed.

Section MatcherEdges.
Context `{RT : Runtime}.
Import check.

(** [makeAlert] returns an alert exactly when the location has two
    offsets that delimit a slice of the text, and panics otherwise, as on
    the empty location. *)
Lemma makeAlert_Some_iff (d : Definition_) (loc : list Z) (txt : string)
    (a : Alert) :
  makeAlert d loc txt = Some a ↔ made_from d txt loc a.
Proof.
  unfold makeAlert, made_from. split.
  - destruct (Go.index loc 0) as [lo|] eqn:H0; [|done].
    apply index_0_Some in H0 as [rest ->]. cbn [mbind option_bind].
    destruct (Go.index (lo :: rest) 1) as [hi|] eqn:H1; [|done].
    apply index_1_Some in H1 as [rest' ->]. cbn [mbind option_bind].
    destruct (Go.slice txt lo hi) as [s|] eqn:Hs; [|done].
    apply slice_Some in Hs as [Hr ->]. cbn [mbind option_bind formatMessages].
    intros [= <-]. by exists lo, hi, rest'.
  - intros (lo & hi & rest & -> & Hr & ->).
    rewrite index_0, index_1. cbn [mbind option_bind].
    pose proof (slice_in_range txt (lo, hi) Hr) as Hs. cbn [fst snd] in Hs.
    by rewrite Hs.
Qed.

Lemma existence_loop_iff chk txt locs : ∀ acc out,
  existence_loop chk txt locs acc = Some out
  ↔ ∃ new, out = acc ++ new ∧ Forall2 (made_from (ex_def chk) txt) locs new.
Proof.
  induction locs as [|loc locs IH]; intros acc out; cbn [existence_loop].
  - split.
    + intros [= <-]. exists []. by rewrite app_nil_r.
    + intros (new & -> & Hnew). apply Forall2_nil_inv_l in Hnew as ->.
      by rewrite app_nil_r.
  - split.
    + destruct (makeAlert (ex_def chk) loc txt) as [a|] eqn:Ha; [|done].
      cbn [mbind option_bind]. intros (new & -> & Hnew)%IH.
      exists (a :: new). rewrite <- app_assoc. split; [done|].
      constructor; [by apply makeAlert_Some_iff|done].
    + intros (new & -> & Hnew).
      apply Forall2_cons_inv_l in Hnew as (a & new' & Ha & Hnew' & ->).
      apply makeAlert_Some_iff in Ha. rewrite Ha. cbn [mbind option_bind].
      apply IH. exists new'. by rewrite <- app_assoc.
Qed.

(** [checkExistence] returns alerts exactly when every match location is
    a slice of the text, and then it returns one alert for each match, in
    order, whose span is the match location; it panics otherwise. *)
Theorem checkExistence_iff (txt : string) (chk : Existence) (r : Regexp)
    (alerts : list Alert) :
  checkExistence txt chk r = Some alerts
  ↔ Forall2 (made_from (ex_def chk) txt) (FindAllStringIndex r txt) alerts.
Proof.
  unfold checkExistence. rewrite existence_loop_iff. split.
  - by intros (new & -> & Hnew).
  - intros Hall. by exists alerts.
Qed.

(** [checkCapitalization] never panics: it returns no alert when the
    predicate holds of the text, and otherwise one alert whose span is the
    whole text and whose message is formatted with the whole text. *)
Theorem checkCapitalization_spec (txt : string) (chk : Capitalization) :
  checkCapitalization txt chk
  = Some (if ca_Check chk txt then []
          else [mkAlert (Name (ca_def chk))
                  (FormatMessage (Description (ca_def chk)) [txt]) false
                  (Link (ca_def chk))
                  (FormatMessage (Message (ca_def chk)) [txt])
                  (Level (ca_def chk)) [0; Z.of_nat (String.length txt)]]).
Proof.
  unfold checkCapitalization. destruct (ca_Check chk txt); cbn [negb]; [done|].
  assert (Hr : in_range txt (0, Z.of_nat (String.length txt)))
    by (unfold in_range; cbn [fst snd]; lia).
  pose proof (makeAlert_in_range (ca_def chk) txt _ Hr) as Hm.
  unfold loc_of in Hm. cbn [fst snd] in Hm. rewrite Hm.
  cbn [mbind option_bind]. unfold alert_at, text_at, loc_of. cbn [fst snd].
  rewrite Z.sub_0_r, Nat2Z.id. change (Z.to_nat 0) with 0%nat.
  by rewrite substring_full.
Qed.

Lemma consistency_inner_prefix names submat : ∀ rest idx loc seqs loc' seqs',
  consistency_inner names submat idx rest loc seqs = Some (loc', seqs') →
  seqs `prefix_of` seqs'.
Proof.
  induction rest as [|mat rest IH]; intros idx loc seqs loc' seqs'.
  - by intros [= _ <-].
  - rewrite consistency_inner_cons.
    destruct (negb (mat =? -1) && (0 <? idx) && (Z.rem idx 2 =? 0)).
    + destruct (Go.index submat (idx + 1)) as [hi|]; [|done].
      destruct (Go.index names (Z.quot idx 2)) as [n|]; [|done].
      cbn [mbind option_bind]. intros Hrun%IH.
      etrans; [|exact Hrun]. by apply prefix_app_r.
    + apply IH.
Qed.

Lemma consistency_outer_prefix names matches : ∀ loc seqs loc' seqs',
  consistency_outer names matches loc seqs = Some (loc', seqs') →
  seqs `prefix_of` seqs'.
Proof.
  induction matches as [|v matches IH]; intros loc seqs loc' seqs';
    cbn [consistency_outer].
  - by intros [= _ <-].
  - destruct (consistency_inner names v 0 v loc seqs) as [[loc1 seqs1]|] eqn:E;
      [|done].
    cbn [mbind option_bind]. intros Hrun%IH.
    etrans; [|exact Hrun]. by eapply consistency_inner_prefix.
Qed.

(** What one evaluation of a Consistency rule does whenever it returns,
    whatever the regular-expression engine: it only extends the sequence
    memory, and it emits either nothing or one alert; the alert is emitted
    only on a block with a match and with every alternative in the
    extended memory, it is reported under the name that the rule extends,
    and its span is a slice of the text. *)
Lemma checkConsistency_returns (txt : string) (chk : Consistency)
    (seqs : list string) (r : Regexp) (opts : list string)
    (alerts : list Alert) (seqs' : list string) :
  checkConsistency txt chk seqs r opts = Some (alerts, seqs') →
  seqs `prefix_of` seqs'
  ∧ (alerts = []
     ∨ ∃ a loc,
         alerts = [a]
         ∧ FindAllStringSubmatchIndex r txt ≠ []
         ∧ Forall (λ o, o ∈ seqs') opts
         ∧ core.Check a = Extends (cs_def chk)
         ∧ made_from (with_Name (cs_def chk) (Extends (cs_def chk))) txt loc a).
Proof.
  unfold checkConsistency.
  destruct (consistency_outer _ _ _ _) as [[loc seqs1]|] eqn:Hout; [|done].
  cbn [mbind option_bind]. apply consistency_outer_prefix in Hout.
  destruct (bool_decide_reflect (FindAllStringSubmatchIndex r txt = []))
    as [Hnil|Hne]; cbn [negb andb].
  - intros [= <- <-]. split; [done|by left].
  - destruct (AllStringsInSlice opts seqs1) eqn:Hall.
    + destruct (makeAlert _ loc txt) as [a|] eqn:Ha; [|done].
      cbn [mbind option_bind]. intros [= <- <-]. split; [done|]. right.
      apply makeAlert_Some_iff in Ha as Hm. exists a, loc.
      repeat split; try done.
      * by apply AllStringsInSlice_Forall.
      * destruct Hm as (lo & hi & rest & _ & _ & ->). reflexivity.
    + intros [= <- <-]. split; [done|by left].
Qed.

(** The unconditional form, for the dispatcher and for users of the rule. *)
Theorem checkConsistency_grows (txt : string) (chk : Consistency)
    (seqs : list string) (r : Regexp) (opts : list string)
    (alerts : list Alert) (seqs' : list string) :
  checkConsistency txt chk seqs r opts = Some (alerts, seqs') →
  seqs `prefix_of` seqs'
  ∧ (alerts = []
     ∨ ∃ a loc,
         alerts = [a]
         ∧ FindAllStringSubmatchIndex r txt ≠ []
         ∧ Forall (λ o, o ∈ seqs') opts
         ∧ core.Check a = Extends (cs_def chk)
         ∧ made_from (with_Name (cs_def chk) (Extends (cs_def chk))) txt loc a).
Proof. apply checkConsistency_returns. Qed.

Lemma substitution_inner_usable chk txt repl submat : ∀ rest k pos alerts out,
  (1 ≤ k)%nat → Nat.Even (length rest) → drop (2 * k) submat = rest →
  substitution_inner chk txt repl submat (Z.of_nat (2 * k)) rest pos alerts
  = Some out →
  Forall (usable txt repl) (groups_from k rest).
Proof.
  induction rest as [|a|lo hi rest IH] using pair_ind;
    intros k pos alerts out Hk Heven Hdrop.
  - by intros _.
  - destruct Heven as [n Hn]. cbn [length] in Hn. lia.
  - apply drop_pair in Hdrop as (Hlo & Hhi & Hdrop).
    assert (Heven' : Nat.Even (length rest)).
    { destruct Heven as [n Hn]. cbn [length] in Hn. exists (n - 1)%nat. lia. }
    replace (S (S (2 * k))) with (2 * S k)%nat in Hdrop by lia.
    rewrite substitution_inner_cons, rem_even. cbn [groups_from].
    destruct (Z.ltb_spec 0 (Z.of_nat (2 * k))); [|lia].
    destruct (Z.eqb_spec lo (-1)) as [->|Hne]; cbn [negb andb app].
    + rewrite substitution_inner_odd. by apply IH; [lia|..].
    + change (0 =? 0) with true. cbn match.
      replace (Go.index submat (Z.of_nat (2 * k) + 1)) with (Some hi).
      2:{ replace (Z.of_nat (2 * k) + 1) with (Z.of_nat (S (2 * k))) by lia.
          by rewrite index_nat. }
      cbn [mbind option_bind]. rewrite quot_even.
      replace (Z.of_nat k - 1) with (Z.of_nat (k - 1)) by lia.
      rewrite index_nat.
      destruct (repl !! (k - 1)%nat) as [e|] eqn:He; [|done].
      cbn [mbind option_bind].
      destruct (Go.slice txt lo hi) as [sl|] eqn:Hs; [|done].
      apply slice_Some in Hs as [Hr ->]. cbn [mbind option_bind].
      assert (Hu : usable txt repl (k, (lo, hi))).
      { split; [|done]. cbn [fst]. by rewrite He. }
      destruct (negb _).
      * cbn [formatMessages]. rewrite substitution_inner_odd.
        intros Hrun. constructor; [done|]. by eapply IH; [lia|..].
      * rewrite substitution_inner_odd.
        intros Hrun. constructor; [done|]. by eapply IH; [lia|..].
Qed.

Lemma substitution_inner_usable_all chk txt repl submat pos alerts out :
  Nat.Even (length submat) →
  substitution_inner chk txt repl submat 0 submat pos alerts = Some out →
  Forall (usable txt repl) (matched_groups submat).
Proof.
  intros Heven. unfold matched_groups.
  destruct submat as [|s [|e rest]].
  - by intros _.
  - destruct Heven as [n Hn]. cbn [length] in Hn. lia.
  - rewrite substitution_inner_cons. change (0 <? 0) with false.
    rewrite andb_false_r. cbn match.
    change (0 + 1) with (Z.of_nat (2 * 0) + 1).
    rewrite substitution_inner_odd.
    change (drop 2 (s :: e :: rest)) with rest.
    apply substitution_inner_usable; [lia| |done].
    destruct Heven as [n Hn]. cbn [length] in Hn. exists (n - 1)%nat. lia.
Qed.

Lemma substitution_outer_usable chk txt repl matches : ∀ pos alerts out,
  Forall (λ v, Nat.Even (length v)) matches →
  substitution_outer chk txt repl matches pos alerts = Some out →
  Forall (usable txt repl) (all_groups matches).
Proof.
  induction matches as [|v matches IH]; intros pos alerts out Heven;
    cbn [substitution_outer].
  - by intros _.
  - apply Forall_cons in Heven as [He1 He2].
    destruct (substitution_inner chk txt repl v 0 v pos alerts)
      as [[pos' alerts']|] eqn:E; [|done].
    cbn [mbind option_bind]. intros Hrun.
    unfold all_groups. rewrite fmap_cons. cbn [concat].
    apply Forall_app. split.
    + by eapply substitution_inner_usable_all.
    + by eapply IH.
Qed.

(** [checkSubstitution] runs to its end exactly when every capture group
    that takes part in a match has a replacement in the table and lies in
    the text; on a text with a match it panics as soon as a group has no
    replacement, as a group of the user's own has. *)
Theorem checkSubstitution_completes_iff (txt : string) (chk : Substitution)
    (r : Regexp) (repl : list string) :
  Forall (λ v, Nat.Even (length v)) (FindAllStringSubmatchIndex r txt) →
  MatchString r txt = true →
  is_Some (checkSubstitution txt chk r repl)
  ↔ Forall (usable txt repl) (all_groups (FindAllStringSubmatchIndex r txt)).
Proof.
  intros Heven Hmatch. unfold checkSubstitution. rewrite Hmatch. cbn [negb].
  split.
  - intros [out Hrun]. by eapply substitution_outer_usable.
  - intros Hall. by rewrite substitution_outer_spec.
Qed.

End MatcherEdges.

Section RepetitionFacts.
Context `{RT : Runtime}.
Import check.

Lemma repetition_loop_cons chk txt loc rest prev ploc count alerts :
  repetition_loop chk txt (loc :: rest) prev ploc count alerts
  = (lo ← Go.index loc 0;
     hi ← Go.index loc 1;
     s ← Go.slice txt lo hi;
     let curr := TrimSpace s in
     let hit := repeated chk prev curr in
     let count := if hit then count + 1 else count in
     if hit && (re_Max chk <? count) then
       p0 ← Go.index ploc 0;
       l1 ← Go.index loc 1;
       let d := re_def chk in
       let a := mkAlert (Name d) (FormatMessage (Description d) [curr]) false
                  (Link d) (FormatMessage (Message d) [curr]) (Level d)
                  [p0; l1] in
       repetition_loop chk txt rest curr loc 0 (alerts ++ [a])
     else repetition_loop chk txt rest curr loc count alerts).
Proof.
  cbn [repetition_loop]. unfold repeated.
  destruct (Go.index loc 0); [|done]. destruct (Go.index loc 1); [|done].
  cbn [mbind option_bind]. destruct (Go.slice txt _ _); [|done].
  cbn [mbind option_bind formatMessages]. by destruct (re_Ignorecase chk).
Qed.

Lemma repetition_loop_adjacent chk txt : ∀ rest prev ploc count alerts out a,
  repetition_loop chk txt rest prev ploc count alerts = Some out →
  remembers txt prev ploc →
  a ∈ out →
  a ∈ alerts
  ∨ ∃ l1 l2 p q, ploc :: rest = l1 ++ p :: q :: l2 ∧ repeats_at chk txt p q a.
Proof.
  induction rest as [|loc rest IH]; intros prev ploc count alerts out a.
  - intros [= <-] _ Ha. by left.
  - rewrite repetition_loop_cons.
    destruct (Go.index loc 0) as [lo|] eqn:H0; [|done].
    apply index_0_Some in H0 as [lt0 ->]. cbn [mbind option_bind].
    destruct (Go.index (lo :: lt0) 1) as [hi|] eqn:H1; [|done].
    apply index_1_Some in H1 as [lt ->]. cbn [mbind option_bind].
    destruct (Go.slice txt lo hi) as [sl|] eqn:Hs; [|done].
    apply slice_Some in Hs as [Hr ->]. cbn [mbind option_bind].
    fold (token_at txt (lo, hi)).
    assert (Hnext : remembers txt (token_at txt (lo, hi)) (lo :: hi :: lt)).
    { right. by exists lo, hi, lt. }
    assert (Hshift : ∀ b,
      (∃ l1 l2 p q, (lo :: hi :: lt) :: rest = l1 ++ p :: q :: l2
                    ∧ repeats_at chk txt p q b) →
      ∃ l1 l2 p q, ploc :: (lo :: hi :: lt) :: rest = l1 ++ p :: q :: l2
                   ∧ repeats_at chk txt p q b).
    { intros b (l1 & l2 & p & q & E & Hb). exists (ploc :: l1), l2, p, q.
      split; [by rewrite E|done]. }
    destruct (repeated chk prev (token_at txt (lo, hi))) eqn:Hhit;
      cbn [andb]; [destruct (re_Max chk <? count + 1)|].
    + destruct (Go.index ploc 0) as [p0|] eqn:Hp0; [|done].
      cbn [mbind option_bind]. intros Hrun Hrem Ha.
      destruct (IH _ _ _ _ _ _ Hrun Hnext Ha) as [Hin|Hadj];
        [|right; by apply Hshift].
      apply elem_of_app in Hin as [Hin|Hin]; [by left|].
      apply list_elem_of_singleton in Hin as ->. right.
      destruct Hrem as [->|(p0' & p1 & pt & -> & Hpr & ->)]; [done|].
      injection Hp0 as <-.
      exists [], rest, (p0' :: p1 :: pt), (lo :: hi :: lt). split; [done|].
      by exists p0', p1, pt, lo, hi, lt.
    + intros Hrun _ Ha.
      destruct (IH _ _ _ _ _ _ Hrun Hnext Ha) as [Hin|Hadj]; [by left|].
      right. by apply Hshift.
    + intros Hrun _ Ha.
      destruct (IH _ _ _ _ _ _ Hrun Hnext Ha) as [Hin|Hadj]; [by left|].
      right. by apply Hshift.
Qed.

(** Whatever the engine and the limit, every alert of [checkRepetition]
    reports two matches that are next to each other in the list of
    matches, whose trimmed texts are equal (up to case if the rule ignores
    case) and not empty; its span runs from the start of the first to the
    end of the second, and its message has the repeated token. *)
Theorem checkRepetition_adjacent (txt : string) (chk : Repetition)
    (r : Regexp) (alerts : list Alert) (a : Alert) :
  checkRepetition txt chk r = Some alerts →
  a ∈ alerts →
  ∃ l1 l2 p q,
    FindAllStringIndex r txt = l1 ++ p :: q :: l2 ∧ repeats_at chk txt p q a.
Proof.
  unfold checkRepetition. intros Hrun Ha.
  destruct (repetition_loop_adjacent _ _ _ _ _ _ _ _ a Hrun) as [Hin|Hadj];
    [by left|done|by apply elem_of_nil in Hin|].
  destruct Hadj as (l1 & l2 & p & q & E & Hrep).
  destruct l1 as [|x l1].
  - injection E as <- _.
    destruct Hrep as (p0 & p1 & pt & _ & _ & _ & [=] & _).
  - injection E as _ E. by exists l1, l2, p, q.
Qed.

Lemma repetition_loop_count chk txt :
  (∀ s, ToLower s = ToLower "" → s = "") →
  ∀ ps prev ploc count alerts,
    Forall (in_range txt) ps →
    prev = "" ∨ (∃ p0 pt, ploc = p0 :: pt) →
    0 ≤ count → (0 ≤ re_Max chk → count ≤ re_Max chk) →
    ∃ out,
      repetition_loop chk txt (loc_of <$> ps) prev ploc count alerts = Some out
      ∧ Z.of_nat (length out)
        = Z.of_nat (length alerts)
          + (if re_Max chk <? 0 then hits_from chk txt prev ps
             else (count + hits_from chk txt prev ps) / (re_Max chk + 1)).
Proof.
  intros Hlower.
  assert (Hfirst : ∀ curr, repeated chk "" curr = false).
  { intros curr. unfold repeated.
    destruct (String.eqb_spec curr "") as [->|Hne]; [by rewrite andb_false_r|].
    rewrite andb_true_r. destruct (re_Ignorecase chk).
    - destruct (String.eqb_spec (ToLower curr) (ToLower "")) as [E|]; [|done].
      by apply Hlower in E.
    - by destruct (String.eqb_spec curr ""). }
  induction ps as [|p ps IH]; intros prev ploc count alerts Hps Hploc Hc Hmax.
  - exists alerts. split; [done|]. cbn [hits_from].
    destruct (Z.ltb_spec (re_Max chk) 0); [lia|].
    rewrite Z.add_0_r, Z.div_small by lia. lia.
  - apply Forall_cons in Hps as [Hp Hps]. rewrite fmap_cons.
    rewrite repetition_loop_cons, index_loc_0, index_loc_1.
    cbn [mbind option_bind]. rewrite (slice_in_range _ _ Hp).
    cbn [mbind option_bind hits_from]. fold (token_at txt p).
    assert (Hnext : token_at txt p = "" ∨ ∃ p0 pt, loc_of p = p0 :: pt)
      by (right; by eexists _, _).
    destruct (repeated chk prev (token_at txt p)) eqn:Hhit; cbn [andb].
    + destruct Hploc as [->|(p0 & pt & ->)]; [by rewrite Hfirst in Hhit|].
      destruct (Z.ltb_spec (re_Max chk) (count + 1)) as [Hover|Hunder].
      * rewrite index_0. cbn [mbind option_bind].
        edestruct (IH (token_at txt p) (loc_of p) 0) as (out & -> & Hlen);
          [done|done|lia|lia|].
        exists out. split; [done|]. rewrite Hlen, length_app. cbn [length].
        destruct (Z.ltb_spec (re_Max chk) 0); [lia|].
        assert (count = re_Max chk) as -> by lia.
        replace (re_Max chk + (1 + hits_from chk txt (token_at txt p) ps))
          with (1 * (re_Max chk + 1) + hits_from chk txt (token_at txt p) ps)
          by lia.
        rewrite Z.div_add_l, Z.add_0_l by lia. lia.
      * edestruct (IH (token_at txt p) (loc_of p) (count + 1))
          as (out & -> & Hlen); [done|done|lia|lia|].
        exists out. split; [done|]. rewrite Hlen.
        destruct (Z.ltb_spec (re_Max chk) 0); [lia|].
        do 2 f_equal. lia.
    + edestruct (IH (token_at txt p) (loc_of p) count) as (out & -> & Hlen);
        [done|done|lia|lia|].
      exists out. split; [done|]. rewrite Hlen.
      destruct (Z.ltb_spec (re_Max chk) 0); [lia|]. do 2 f_equal.
Qed.

(** On well-formed matches [checkRepetition] returns, and the number of
    its alerts is the number of repetitions in the text divided by
    [max + 1], or that number itself for a negative [max]: the counter is
    not reset by a token that is not repeated, so that repetitions far
    from each other add up.  [ToLower] is assumed to send only the empty
    string to the empty string, as [strings.ToLower] does: the first match
    is then never taken for a repetition of the initial, empty token. *)
Theorem checkRepetition_count (txt : string) (chk : Repetition) (r : Regexp)
    (ps : list (Z * Z)) :
  FindAllStringIndex r txt = loc_of <$> ps →
  Forall (in_range txt) ps →
  (∀ s, ToLower s = ToLower "" → s = "") →
  ∃ alerts,
    checkRepetition txt chk r = Some alerts
    ∧ Z.of_nat (length alerts)
      = if re_Max chk <? 0 then repetitions chk txt ps
        else repetitions chk txt ps / (re_Max chk + 1).
Proof.
  intros Hlocs Hps Hlower. unfold checkRepetition, repetitions.
  rewrite Hlocs.
  destruct (repetition_loop_count chk txt Hlower ps "" [] 0 [])
    as (out & -> & Hlen); [done|by left|lia|lia|].
  exists out. split; [done|]. rewrite Hlen. cbn [length].
  by destruct (re_Max chk <? 0).
Qed.

End RepetitionFacts.

(* ================================================================== *)
(** ** Further properties of the loader                                *)
(* ================================================================== *)

Lemma Split1_nonempty (s : string) (sep : ascii) : Go.Split1 s sep ≠ [].
Proof.
  destruct s as [|c s]; cbn [Go.Split1]; [done|].
  destruct (Ascii.eqb c sep); [done|]. by destruct (Go.Split1 s sep).
Qed.

Lemma Split1_second (s : string) (sep : ascii) :
  is_Some (Go.index (Go.Split1 s sep) 1) ↔ Go.Contains1 s sep = true.
Proof.
  change (Go.index (Go.Split1 s sep) 1) with (Go.Split1 s sep !! 1%nat).
  induction s as [|c s IH]; cbn [Go.Split1 Go.Contains1].
  - split; [by intros [? [=]]|done].
  - destruct (Ascii.eqb c sep); cbn [orb].
    + split; [done|intros _].
      pose proof (Split1_nonempty s sep).
      destruct (Go.Split1 s sep) as [|w ws]; [done|]. by eexists.
    + rewrite <- IH. pose proof (Split1_nonempty s sep).
      by destruct (Go.Split1 s sep) as [|w ws].
Qed.

Section LoaderFacts.
Context `{RT : Runtime}.
Import check.

(** An Occurrence rule that is in the registry never panics, whatever the
    text, and leaves the sequence memory as it is: its token compiled and
    its limit is at least 1, which is what makes the indexing of the list
    of matches safe. *)
Theorem addOccurrenceCheck_rule_total (mgr : Manager) (chkName : string)
    (chkDef : Occurrence) (chk : Check_) :
  (∀ r txt, Forall is_pair (FindAllStringIndex r txt)) →
  AllChecks mgr !! Name (oc_def chkDef) = None →
  AllChecks (addOccurrenceCheck mgr chkName chkDef) !! Name (oc_def chkDef)
  = Some chk →
  ∃ re,
    Compile (oc_Token chkDef) = Some re ∧ 1 ≤ oc_Max chkDef
    ∧ chk_Level chk = LevelToInt (Level (oc_def chkDef))
    ∧ ∀ txt seqs,
        ∃ alerts,
          chk_Rule chk txt seqs = Some (alerts, seqs)
          ∧ checkOccurrence txt chkDef re (oc_Max chkDef) = Some alerts.
Proof.
  intros Hpairs Hfresh. unfold addOccurrenceCheck.
  destruct (Compile (oc_Token chkDef)) as [re|]; [|by rewrite Hfresh].
  destruct (Z.leb_spec 1 (oc_Max chkDef)); [|by rewrite Hfresh].
  rewrite updateAllChecks_lookup. intros [= <-]. exists re.
  repeat split; try done. intros txt seqs. cbn [chk_Rule]. unfold pure_rule.
  destruct (checkOccurrence_total txt chkDef re (oc_Max chkDef))
    as [alerts Hrun]; [lia|done|].
  exists alerts. by rewrite Hrun.
Qed.

(** [addConsistencyCheck] panics exactly when the name of the rule has no
    dot: the key of the group names is the second dot-separated part of
    the name. *)
Theorem addConsistencyCheck_None_iff (mgr : Manager) (chkName : string)
    (chkDef : Consistency) :
  addConsistencyCheck mgr chkName chkDef = None
  ↔ Go.Contains1 chkName "." = false.
Proof.
  unfold addConsistencyCheck.
  pose proof (Split1_second chkName ".") as Hsecond.
  destruct (Go.index (Go.Split1 chkName ".") 1) as [key|];
    cbn [mbind option_bind].
  - split; [done|]. intros Hno.
    destruct Hsecond as [Hsecond _]. rewrite Hsecond in Hno; [done|by eexists].
  - split; [intros _|done].
    destruct (Go.Contains1 chkName "."); [|done].
    destruct Hsecond as [_ Hsecond]. by destruct Hsecond.
Qed.

Lemma either_loop_entries chkName chkKey regex level code :
  ∀ either mgr chkDef count,
    Level (cs_def chkDef) = level → Code (cs_def chkDef) = code →
    let mgr' := either_loop mgr chkName chkKey regex chkDef either count in
    (∀ name, is_Some (AllChecks mgr !! name) →
             is_Some (AllChecks mgr' !! name))
    ∧ ∀ name chk,
        AllChecks mgr' !! name = Some chk →
        AllChecks mgr !! name = Some chk
        ∨ pair_entry chkName level code either name chk.
Proof.
  induction either as [|[v1 v2] either IH]; intros mgr chkDef count Hl Hc mgr'.
  - subst mgr'. cbn [either_loop]. split; [done|]. intros name chk ?. by left.
  - subst mgr'. cbn [either_loop].
    destruct (Compile _) as [re|].
    + match goal with
      | |- context [either_loop (updateAllChecks mgr ?d ?fn) _ _ _ ?cd _ _] =>
          set (d' := d); set (fn' := fn); set (chkDef' := cd)
      end.
      destruct (IH (updateAllChecks mgr d' fn') chkDef' (count + 2))
        as [Hkeep Hnew]; [by subst chkDef' d'..|].
      split.
      * intros name Hin. apply Hkeep. unfold updateAllChecks.
        cbn [AllChecks]. rewrite lookup_insert. by case_decide.
      * intros name chk Hreg. destruct (Hnew name chk Hreg) as [Hold|Hpair].
        -- unfold updateAllChecks in Hold. cbn [AllChecks] in Hold.
           rewrite lookup_insert in Hold. case_decide as Hname; [|by left].
           right. injection Hold as <-. subst name.
           exists v1, v2. split; [left|]. do 2 (split; [reflexivity|]).
           split; [cbn [chk_Level]; by rewrite Hl|].
           split; [cbn [chk_Code]; by rewrite Hc|].
           intros txt seqs alerts seqs' Hrun. cbn [chk_Rule] in Hrun.
           subst fn'.
           apply checkConsistency_returns in Hrun as [Hpre Hcase].
           split; [done|].
           destruct Hcase as [->|(a & loc & -> & _ & _ & Hchk & _)];
             [split; [cbn [length]; lia|done]|].
           split; [cbn [length]; lia|]. by apply Forall_singleton.
        -- right. destruct Hpair as (w1 & w2 & Hin & Hrest).
           exists w1, w2. split; [by right|done].
    + destruct (IH mgr chkDef (count + 2)) as [Hkeep Hnew]; [done..|].
      split; [done|]. intros name chk Hreg.
      destruct (Hnew name chk Hreg) as [Hold|Hpair]; [by left|right].
      destruct Hpair as (w1 & w2 & Hin & Hrest).
      exists w1, w2. split; [by right|done].
Qed.

(** [addConsistencyCheck] removes no rule from the registry, and every
    entry it writes is the rule of one pair of alternatives: it is named
    after the rule and the first alternative, it extends the rule, it has
    the level and the code flag of the definition, and whenever it returns
    it has only extended the sequence memory and emitted at most one alert,
    reported under the name of the rule. *)
Theorem addConsistencyCheck_entries (mgr mgr' : Manager) (chkName : string)
    (chkDef : Consistency) :
  addConsistencyCheck mgr chkName chkDef = Some mgr' →
  (∀ name, is_Some (AllChecks mgr !! name) → is_Some (AllChecks mgr' !! name))
  ∧ ∀ name chk,
      AllChecks mgr' !! name = Some chk →
      AllChecks mgr !! name = Some chk
      ∨ pair_entry chkName (Level (cs_def chkDef)) (Code (cs_def chkDef))
          (cs_Either chkDef) name chk.
Proof.
  unfold addConsistencyCheck.
  destruct (Go.index (Go.Split1 chkName ".") 1) as [key|]; [|done].
  cbn [mbind option_bind]. intros [= <-].
  by apply either_loop_entries.
Qed.

End LoaderFacts.

(* ================================================================== *)
(** ** Further properties of the dispatcher                            *)
(* ================================================================== *)

Section DispatcherFacts.
Context `{RT : Runtime}.
Import check lint.

Lemma passes_guards_text l f blk hasCode name chk :
  passes_guards l f blk hasCode name chk = true →
  rule_text hasCode chk blk ≠ "".
Proof.
  unfold passes_guards. intros Hg Hempty. rewrite Hempty in Hg.
  by rewrite orb_true_r in Hg.
Qed.

Lemma lintText_loop_skip l blk lines pad hasCode order st :
  Text blk = "" → Raw blk = "" →
  lintText_loop l blk lines pad hasCode order st = Some st.
Proof.
  intros Ht Hr. induction order as [|[name chk] order IH];
    cbn [lintText_loop]; [done|].
  destruct st as [f calls]. unfold lintText_body.
  destruct (passes_guards l f blk hasCode name chk) eqn:Hg.
  - apply passes_guards_text in Hg. unfold rule_text in Hg.
    destruct (chk_Code chk && hasCode); congruence.
  - cbn [mbind option_bind]. apply IH.
Qed.

(** On a block whose text and raw text are empty, [lintText] calls no
    rule, whatever the registry, and leaves the file as it is, but for the
    map [ChkToCtx], which it empties. *)
Theorem lintText_empty_block (l : Linter) (order : list (string * Check_))
    (f : File) (blk : Block) (lines pad : Z) :
  Text blk = "" → Raw blk = "" →
  lintText l order f blk lines pad = Some (with_ChkToCtx f ∅, []).
Proof. intros Ht Hr. unfold lintText. by apply lintText_loop_skip. Qed.

(** The calls of a run of [lintText], each with the rule it is a call
    of. *)
Lemma lintText_calls_on l order f blk lines pad f' calls :
  order ≡ₚ map_to_list (AllChecks (CheckManager l)) →
  lintText l order f blk lines pad = Some (f', calls) →
  same_settings f f'
  ∧ call_name <$> calls
    = (filter (λ e, passes_guards l f blk (hasCode_of f) e.1 e.2 = true)
         order).*1
  ∧ ∀ c, c ∈ calls → ∃ chk, call_on l f blk c chk.
Proof.
  intros Hord Hrun. unfold lintText in Hrun. fold (hasCode_of f) in Hrun.
  apply lintText_loop_spec in Hrun as (Hs & new & -> & Hnew).
  cbn [app].
  assert (Hsame : same_settings f (with_ChkToCtx f ∅)) by (by repeat split).
  rewrite (list_filter_iff _
    (λ e, passes_guards l f blk (hasCode_of f) e.1 e.2 = true)) in Hnew
    by (intros x; by rewrite (passes_guards_settings _ _ _ _ _ _ _ Hsame)).
  split; [by eapply same_settings_trans|]. split.
  - clear Hs. induction Hnew as [|c e new es [Hc _] _ IH]; [done|].
    rewrite !fmap_cons. by f_equal.
  - intros c Hc.
    destruct (proj1 (list_elem_of_lookup _ _) Hc) as [i Hi].
    destruct (Forall2_lookup_l _ _ _ _ _ Hnew Hi) as ([n chk] & He & Hn & Ht).
    apply list_elem_of_lookup_2, list_elem_of_filter in He as [Hg He].
    cbn [fst snd] in *. exists chk. split; [|split; [done|]].
    + rewrite Hn. by apply (order_lookup (AllChecks (CheckManager l)) order).
    + rewrite Ht. by eapply passes_guards_text.
Qed.

Lemma add_alerts_rest ctx txt lines pad alerts : ∀ f,
  let f' := foldl (fun f a => add_alert f a ctx txt lines pad) f alerts in
  RealExt f' = RealExt f ∧ Sequences f' = Sequences f.
Proof.
  induction alerts as [|a alerts IH]; intros f; [done|]. cbn [foldl].
  destruct (IH (add_alert f a ctx txt lines pad)) as [-> ->].
  unfold add_alert. by destruct (AddAlert _ _ _ _ _ _).
Qed.

Lemma lintText_loop_rest l blk lines pad hasCode order : ∀ f calls f' calls',
  (∀ e, e ∈ order → only_extends (chk_Rule e.2)) →
  lintText_loop l blk lines pad hasCode order (f, calls) = Some (f', calls') →
  RealExt f' = RealExt f ∧ Sequences f `prefix_of` Sequences f'.
Proof.
  induction order as [|[name chk] order IH]; intros f calls f' calls' Hext;
    cbn [lintText_loop].
  - by intros [= <- <-].
  - assert (Hrest : ∀ e, e ∈ order → only_extends (chk_Rule e.2))
      by (intros e He; apply Hext; by right).
    unfold lintText_body.
    destruct (passes_guards l f blk hasCode name chk);
      [|cbn [mbind option_bind]; by apply IH].
    destruct (chk_Rule chk _ _) as [[alerts seqs]|] eqn:Hrule; [|done].
    cbn [mbind option_bind]. intros Hrun.
    apply IH in Hrun as [-> Hpre]; [|done].
    destruct (add_alerts_rest (Context blk) (rule_text hasCode chk blk) lines
                pad alerts (with_Sequences f seqs)) as [HR HS].
    rewrite HR. rewrite HS in Hpre. split; [done|].
    etrans; [|exact Hpre]. cbn [Sequences with_Sequences].
    apply (Hext (name, chk)) in Hrule; [done|by left].
Qed.

(** [lintText] keeps the settings of the file, calls the rules in the
    order of the iteration over the registry and each of them at most
    once. *)
Theorem lintText_frame (l : Linter) (order : list (string * Check_))
    (f : File) (blk : Block) (lines pad : Z) :
  order ≡ₚ map_to_list (AllChecks (CheckManager l)) →
  rules_total l →
  ∃ f' calls,
    lintText l order f blk lines pad = Some (f', calls)
    ∧ same_settings f f'
    ∧ (call_name <$> calls) `sublist_of` order.*1
    ∧ NoDup (call_name <$> calls).
Proof.
  intros Hord Htot.
  destruct (lintText_loop_total l blk lines pad (hasCode_of f) order
              (with_ChkToCtx f ∅, [])) as [[f' calls] Hrun].
  { intros [name chk] txt seqs He. eapply Htot.
    by apply (order_lookup (AllChecks (CheckManager l)) order). }
  exists f', calls. split; [done|].
  destruct (lintText_calls_on _ _ _ _ _ _ _ _ Hord Hrun) as (Hs & Hnames & _).
  split; [done|].
  assert (Hsub : (call_name <$> calls) `sublist_of` order.*1).
  { rewrite Hnames. apply fmap_sublist, sublist_filter. }
  split; [done|]. eapply sublist_NoDup; [|exact Hsub].
  rewrite Hord. apply NoDup_fst_map_to_list.
Qed.

(** When every rule of the registry only extends the sequence memory, a
    run of [lintText] only extends the memory of the file. *)
Theorem lintText_memory_grows (l : Linter) (order : list (string * Check_))
    (f f' : File) (blk : Block) (lines pad : Z) (calls : list Call) :
  (∀ e, e ∈ order → only_extends (chk_Rule e.2)) →
  lintText l order f blk lines pad = Some (f', calls) →
  Sequences f `prefix_of` Sequences f'.
Proof.
  intros Hext Hrun. unfold lintText in Hrun.
  by apply lintText_loop_rest in Hrun as [_ Hpre].
Qed.

End DispatcherFacts.


Section BlocksFacts.
Context `{RT : Runtime}.
Import check lint.
Variable PrepText : string → string.
Variable Tokenize : string → list string.

Lemma call_on_settings l f f' blk c chk :
  same_settings f f' → call_on l f' blk c chk → call_on l f blk c chk.
Proof.
  intros (_ & _ & _ & HN) (Hreg & Htxt & Hne). unfold call_on, hasCode_of in *.
  by rewrite <- HN.
Qed.

Lemma lintBlocks_spec l order_of : ∀ blocks n f pad calls f' calls',
  (∀ n, order_of n ≡ₚ map_to_list (AllChecks (CheckManager l))) →
  lintBlocks l order_of n f blocks pad calls = Some (f', calls') →
  same_settings f f'
  ∧ ∀ c, c ∈ calls' →
      c ∈ calls
      ∨ ∃ blk lines chk, (blk, lines) ∈ blocks ∧ call_on l f blk c chk.
Proof.
  induction blocks as [|[blk lines] blocks IH];
    intros n f pad calls f' calls' Hord; cbn [lintBlocks].
  - intros [= <- <-]. split; [apply same_settings_refl|]. intros c ?. by left.
  - destruct (lintText l (order_of n) f blk lines pad) as [[f1 new]|] eqn:Hrun;
      [|done].
    cbn [mbind option_bind]. intros Hrest.
    destruct (lintText_calls_on _ _ _ _ _ _ _ _ (Hord n) Hrun)
      as (Hs1 & _ & Hcalls).
    apply IH in Hrest as [Hs2 Hall]; [|done].
    split; [by eapply same_settings_trans|].
    intros c Hc. destruct (Hall c Hc) as [Hin|(b & ln & chk & Hb & Hon)].
    + apply elem_of_app in Hin as [Hin|Hin]; [by left|right].
      destruct (Hcalls c Hin) as [chk Hon].
      exists blk, lines, chk. split; [by left|done].
    + right. exists b, ln, chk. split; [by right|].
      by eapply call_on_settings.
Qed.

Lemma lintBlocks_total l order_of : ∀ blocks n f pad calls,
  (∀ n, order_of n ≡ₚ map_to_list (AllChecks (CheckManager l))) →
  rules_total l →
  is_Some (lintBlocks l order_of n f blocks pad calls).
Proof.
  induction blocks as [|[blk lines] blocks IH]; intros n f pad calls Hord Htot;
    cbn [lintBlocks]; [done|].
  destruct (lintText_loop_total l blk lines pad (hasCode_of f) (order_of n)
              (with_ChkToCtx f ∅, [])) as [[f1 new] Hrun].
  { intros [name chk] txt seqs He. eapply Htot.
    by apply (order_lookup (AllChecks (CheckManager l)) (order_of n)). }
  unfold lintText. fold (hasCode_of f). rewrite Hrun.
  cbn [mbind option_bind]. by apply IH.
Qed.


Lemma line_blocks_raw f : ∀ scanned lines blk ln,
  (blk, ln) ∈ line_blocks PrepText f lines scanned → Raw blk = "".
Proof.
  induction scanned as [|text scanned IH]; intros lines blk ln;
    cbn [line_blocks].
  - by intros ?%elem_of_nil.
  - intros [[= -> _]|Hin]%elem_of_cons; [done|by eapply IH].
Qed.


(** On such a file [lintLines] never calls a rule with the code flag: the
    blocks it makes of the lines have no raw text. *)
Theorem lintLines_code_rules_silent (l : Linter)
    (order_of : nat → list (string * Check_)) (f : File)
    (scanned : list string) :
  (∀ n, order_of n ≡ₚ map_to_list (AllChecks (CheckManager l))) →
  rules_total l →
  hasCode_of f = true →
  ∃ f' calls,
    lintLines PrepText l order_of f scanned = Some (f', calls)
    ∧ ∀ c chk,
        c ∈ calls →
        AllChecks (CheckManager l) !! call_name c = Some chk →
        chk_Code chk = false.
Proof.
  intros Hord Htot Hcode. unfold lintLines.
  destruct (lintBlocks_total l order_of (line_blocks PrepText f 1 scanned)
              0 f 0 [] Hord Htot) as [[f' calls] Hrun].
  exists f', calls. split; [done|]. intros c chk Hc Hreg.
  apply lintBlocks_spec in Hrun as [_ Hall]; [|done].
  destruct (Hall c Hc) as [Hin|(blk & ln & chk' & Hblk & Hreg' & Htxt & Hne)];
    [by apply elem_of_nil in Hin|].
  assert (chk' = chk) as -> by congruence.
  apply line_blocks_raw in Hblk.
  destruct (chk_Code chk) eqn:Hflag; [|done].
  unfold rule_text in Htxt. rewrite Hflag, Hcode in Htxt. cbn [andb] in Htxt.
  congruence.
Qed.

End BlocksFacts.

(* ================================================================== *)
(** ** Further properties of the walk and of the tables                *)
(* ================================================================== *)

Section WalkFacts.
Import lint.

Lemma walkFn_eligible glob v w :
  walkFn glob v = Some w ↔ w = v ∧ eligible glob v.
Proof.
  unfold walkFn, eligible.
  destruct (v_err v), (v_isDir v), (glob (v_fp v)),
    (HasAnyPrefix (v_name v) ignore); cbn [orb negb];
    split; try done; try (intros [_ (? & ? & ? & ?)]; done).
  - intros [= <-]. done.
  - by intros [-> _].
Qed.




(** Once the walk function has found [done] closed after starting a
    worker, the walk stops: the visits that follow start no worker. *)
Theorem lintFiles_cancelled (glob : string → bool) (l1 l2 : list Visit)
    (w : Visit) :
  eligible glob w → v_done w = true →
  spawned glob (l1 ++ w :: l2) = spawned glob (l1 ++ [w]).
Proof.
  intros He Hd. induction l1 as [|v l1 IH]; cbn [app spawned].
  - rewrite (proj2 (walkFn_eligible glob w w)) by done. by rewrite Hd.
  - destruct (walkFn glob v) as [v'|]; [|done].
    destruct (v_done v'); [done|]. by rewrite IH.
Qed.

End WalkFacts.

Section TableFacts.

Lemma format_entries_ok :
  forallb (λ e, format_entry_ok e.2) FormatByExtension_entries = true.
Proof. vm_compute. reflexivity. Qed.

(** Every entry of [FormatByExtension] gives a normed extension and one of
    the formats markup, code and text, and every normed extension with the
    format code has its three comment delimiters in
    [CommentsByNormedExt]. *)
Theorem format_tables_consistent (pat : string) (v : list string) :
  FormatByExtension !! pat = Some v →
  ∃ ext format,
    v = [ext; format]
    ∧ format ∈ ["markup"; "code"; "text"]
    ∧ (format = "code" →
       ∃ m, CommentsByNormedExt !! ext = Some m
            ∧ is_Some (m !! "inline") ∧ is_Some (m !! "blockStart")
            ∧ is_Some (m !! "blockEnd")).
Proof.
  intros Hv. unfold FormatByExtension in Hv.
  apply elem_of_list_to_map_2, list_elem_of_In in Hv.
  pose proof format_entries_ok as Hok.
  rewrite forallb_forall in Hok. specialize (Hok _ Hv). cbn [snd] in Hok.
  unfold format_entry_ok in Hok.
  destruct v as [|ext [|format [|]]]; try done.
  apply andb_true_iff in Hok as [Hf Hc]. apply bool_decide_eq_true in Hf.
  exists ext, format. split; [done|]. split; [done|]. intros ->.
  cbn [String.eqb negb orb] in Hc.
  change (("code" =? "code")%string) with true in Hc. cbn [negb orb] in Hc.
  destruct (CommentsByNormedExt !! ext) as [m|]; [|done].
  apply bool_decide_eq_true in Hc. by exists m.
Qed.

End TableFacts.

(* ================================================================== *)
(** ** Further properties of the loading plan                          *)
(* ================================================================== *)

Section ManagerFacts.
Import check.
Variable Join : list string → string.

Let ext (baseDir : string) (styles : list string) : list Load :=
  (λ s, LoadExternalStyle s (Join [baseDir; s])) <$> styles.

Lemma external_styles_app (l1 l2 : list Load) :
  external_styles (l1 ++ l2) = external_styles l1 ++ external_styles l2.
Proof. unfold external_styles. apply omap_app. Qed.

Lemma external_styles_ext baseDir styles :
  external_styles (ext baseDir styles) = styles.
Proof.
  unfold ext, external_styles.
  induction styles as [|s styles IH]; [done|].
  rewrite fmap_cons. cbn [omap list_omap]. by rewrite IH.
Qed.

Lemma global_styles_spec baseDir styles loaded log :
  global_styles Join baseDir styles loaded log
  = (loaded ++ filter (λ s, s ≠ "vale") styles,
     log ++ ext baseDir (filter (λ s, s ≠ "vale") styles)).
Proof.
  revert loaded log.
  induction styles as [|s styles IH]; intros loaded log;
    cbn [global_styles].
  - by rewrite !app_nil_r.
  - rewrite filter_cons. destruct (String.eqb_spec s "vale") as [->|Hne].
    + rewrite decide_False by (intros ?; done). apply IH.
    + rewrite decide_True by done. rewrite IH.
      unfold ext. rewrite fmap_cons, <- !app_assoc. reflexivity.
Qed.

Lemma syntax_styles_spec baseDir styles loaded log :
  ∃ new,
    syntax_styles Join baseDir styles loaded log
    = (loaded ++ new, log ++ ext baseDir new)
    ∧ NoDup new
    ∧ (∀ s, s ∈ new ↔ (s ∉ loaded) ∧ s ∈ styles).
Proof.
  revert loaded log.
  induction styles as [|s styles IH]; intros loaded log;
    cbn [syntax_styles].
  - exists []. rewrite !app_nil_r. split; [done|].
    split; [apply NoDup_nil_2|].
    intros s. rewrite !elem_of_nil. tauto.
  - destruct (StringInSlice s loaded) eqn:Hin; cbn [negb].
    + apply StringInSlice_elem in Hin.
      destruct (IH loaded log) as (new & -> & Hnd & Hel).
      exists new. split; [done|]. split; [done|].
      intros s'. rewrite Hel, elem_of_cons.
      split; [tauto|]. intros [? [->|?]]; tauto.
    + assert (s ∉ loaded) as Hnin.
      { intros ?%StringInSlice_elem. congruence. }
      change [LoadExternalStyle s (Join [baseDir; s])]
        with (ext baseDir [s]).
      destruct (IH (loaded ++ [s]) (log ++ ext baseDir [s]))
        as (new & -> & Hnd & Hel).
      exists (s :: new). rewrite <- !app_assoc. split; [done|].
      split.
      * apply NoDup_cons. split; [|done]. rewrite Hel.
        rewrite elem_of_app, list_elem_of_singleton. tauto.
      * intros s'. rewrite !elem_of_cons, Hel.
        rewrite elem_of_app, list_elem_of_singleton.
        destruct (decide (s' = s)) as [->|?]; tauto.
Qed.

Lemma all_syntax_styles_spec baseDir sbase loaded log :
  ∃ new,
    all_syntax_styles Join baseDir sbase loaded log
    = (loaded ++ new, log ++ ext baseDir new)
    ∧ NoDup new
    ∧ (∀ s, s ∈ new
            ↔ (s ∉ loaded) ∧ ∃ styles, styles ∈ sbase ∧ s ∈ styles).
Proof.
  revert loaded log.
  induction sbase as [|styles sbase IH]; intros loaded log;
    cbn [all_syntax_styles].
  - exists []. rewrite !app_nil_r. split; [done|].
    split; [apply NoDup_nil_2|].
    intros s. split; [by intros ?%elem_of_nil|].
    by intros [_ (? & ?%elem_of_nil & _)].
  - destruct (syntax_styles_spec baseDir styles loaded log)
      as (new1 & -> & Hnd1 & Hel1).
    destruct (IH (loaded ++ new1) (log ++ ext baseDir new1))
      as (new2 & -> & Hnd2 & Hel2).
    exists (new1 ++ new2). unfold ext. rewrite fmap_app, !app_assoc.
    split; [done|]. split.
    + apply NoDup_app. split; [done|]. split; [|done].
      intros s Hs1 [Hs2 _]%Hel2. apply Hs2, elem_of_app. by right.
    + intros s. rewrite elem_of_app, Hel2, Hel1, elem_of_app. split.
      * intros [[? ?]|[? (st & ? & ?)]].
        -- split; [done|]. exists styles. split; [left|done].
        -- split; [tauto|]. exists st. split; [by right|done].
      * intros [Hn (st & [->|Hst]%elem_of_cons & Hs)].
        -- left. done.
        -- destruct (decide (s ∈ new1)) as [Hs1|Hs1].
           ++ left. by apply Hel1.
           ++ right. split; [tauto|]. by exists st.
Qed.

Lemma single_checks_spec baseDir checks loaded log :
  ∃ singles,
    single_checks Join baseDir checks loaded log = Some (log ++ singles)
    ∧ external_styles singles = []
    ∧ ∀ a, a ∈ singles ↔
        ∃ chk style rule,
          chk ∈ checks ∧ Go.Contains1 chk "." = true
          ∧ Go.Split1 chk "." !! 0%nat = Some style
          ∧ Go.Split1 chk "." !! 1%nat = Some rule
          ∧ (style ∉ loaded)
          ∧ a = LoadCheck style (rule +:+ ".yml")
                  (Join [baseDir; style; rule +:+ ".yml"]).
Proof.
  revert log.
  induction checks as [|chk checks IH]; intros log; cbn [single_checks].
  - exists []. rewrite app_nil_r. split; [done|]. split; [done|].
    intros a. split; [by intros ?%elem_of_nil|].
    by intros (? & ? & ? & ?%elem_of_nil & _).
  - destruct (Go.Contains1 chk ".") eqn:Hdot; cbn [negb].
    + pose proof (proj2 (Split1_second chk ".") Hdot) as [rule Hrule].
      change (Go.index (Go.Split1 chk ".") 1)
        with (Go.Split1 chk "." !! 1%nat) in *.
      change (Go.index (Go.Split1 chk ".") 0)
        with (Go.Split1 chk "." !! 0%nat).
      destruct (Go.Split1 chk "." !! 0%nat) as [style|] eqn:Hstyle.
      2:{ by destruct (Go.Split1 chk "."). }
      cbn [mbind option_bind]. rewrite Hrule. cbn [mbind option_bind].
      destruct (StringInSlice style loaded) eqn:Hin; cbn [negb].
      * apply StringInSlice_elem in Hin.
        destruct (IH log) as (singles & -> & Hext & Hel).
        exists singles. split; [done|]. split; [done|].
        intros a. rewrite Hel. split.
        -- intros (c & s & r & ? & ?). exists c, s, r.
           split; [by right|done].
        -- intros (c & s & r & [->|?]%elem_of_cons & Hc & Hs & Hr & Hn & ->).
           ++ rewrite Hstyle in Hs. by injection Hs as <-.
           ++ by exists c, s, r.
      * assert (style ∉ loaded) as Hnin.
        { intros ?%StringInSlice_elem. congruence. }
        destruct (IH (log ++ [LoadCheck style (rule +:+ ".yml")
                                (Join [baseDir; style; rule +:+ ".yml"])]))
          as (singles & -> & Hext & Hel).
        eexists (_ :: singles). rewrite <- app_assoc.
        split; [reflexivity|]. split; [done|].
        intros a. rewrite elem_of_cons, Hel. split.
        -- intros [->|(c & s & r & ? & ?)].
           ++ exists chk, style, rule. split; [left|done].
           ++ exists c, s, r. split; [by right|done].
        -- intros (c & s & r & [->|?]%elem_of_cons & Hc & Hs & Hr & Hn & ->).
           ++ left. rewrite Hstyle in Hs. rewrite Hrule in Hr.
              injection Hs as <-. by injection Hr as <-.
           ++ right. by exists c, s, r.
    + destruct (IH log) as (singles & -> & Hext & Hel).
      exists singles. split; [done|]. split; [done|].
      intros a. rewrite Hel. split.
      -- intros (c & s & r & ? & ?). exists c, s, r.
         split; [by right|done].
      -- intros (c & s & r & [->|?]%elem_of_cons & Hc & ?); [congruence|].
         by exists c, s, r.
Qed.

Lemma NewManager_plan (config : StylesConfig) :
  StylesPath config ≠ "" →
  ∃ styles singles,
    NewManager Join config
    = Some (LoadDefaultRules :: ext (StylesPath config) styles ++ singles)
    ∧ external_styles singles = []
    ∧ (NoDup (GBaseStyles config) → NoDup styles)
    ∧ (∀ s, s ∈ styles ↔
          s ≠ "vale"
          ∧ (s ∈ GBaseStyles config
             ∨ ∃ sts, sts ∈ SBaseStyles config ∧ s ∈ sts))
    ∧ ∀ a, a ∈ singles ↔
        ∃ chk style rule,
          chk ∈ Checks_ config ∧ Go.Contains1 chk "." = true
          ∧ Go.Split1 chk "." !! 0%nat = Some style
          ∧ Go.Split1 chk "." !! 1%nat = Some rule
          ∧ (style ∉ "vale" :: styles)
          ∧ a = LoadCheck style (rule +:+ ".yml")
                  (Join [StylesPath config; style; rule +:+ ".yml"]).
Proof.
  intros Hpath. unfold NewManager.
  destruct (String.eqb_spec (StylesPath config) "") as [?|_]; [done|].
  rewrite global_styles_spec.
  set (g := filter (λ s, s ≠ "vale") (GBaseStyles config)).
  destruct (all_syntax_styles_spec (StylesPath config) (SBaseStyles config)
              (["vale"] ++ g)
              ([LoadDefaultRules] ++ ext (StylesPath config) g))
    as (new & -> & Hnd & Hel).
  destruct (single_checks_spec (StylesPath config) (Checks_ config)
              ((["vale"] ++ g) ++ new)
              (([LoadDefaultRules] ++ ext (StylesPath config) g)
                 ++ ext (StylesPath config) new))
    as (singles & -> & Hext & Hsing).
  assert (∀ s, s ∈ g ↔ s ≠ "vale" ∧ s ∈ GBaseStyles config) as Hg.
  { intros s. unfold g. by rewrite list_elem_of_filter. }
  exists (g ++ new), singles. split.
  { unfold ext. by rewrite fmap_app, <- !app_assoc. }
  split; [done|]. split.
  { intros HG. apply NoDup_app. split; [by apply NoDup_filter|].
    split; [|done]. intros s Hs [Hn _]%Hel. apply Hn.
    cbn [app]. by right. }
  split.
  { intros s. rewrite elem_of_app, Hel, Hg. cbn [app].
    rewrite elem_of_cons, Hg.
    destruct (decide (s ∈ GBaseStyles config)); tauto. }
  intros a. rewrite Hsing. rewrite <- app_assoc. cbn [app]. done.
Qed.

Lemma elem_of_ext baseDir styles a :
  a ∈ ext baseDir styles
  ↔ ∃ s, s ∈ styles ∧ a = LoadExternalStyle s (Join [baseDir; s]).
Proof.
  unfold ext. rewrite list_elem_of_fmap. split.
  - intros (s & -> & ?). by exists s.
  - intros (s & ? & ->). by exists s.
Qed.

Lemma external_styles_none singles s path :
  external_styles singles = [] → LoadExternalStyle s path ∉ singles.
Proof.
  intros Hnone Hin. unfold external_styles in Hnone.
  assert (s ∈ @nil string) as []%elem_of_nil.
  rewrite <- Hnone. apply list_elem_of_omap.
  by exists (LoadExternalStyle s path).
Qed.


(** With a styles path, the styles loaded from a directory are the styles
    named at the global or at a syntax level other than the built-in one,
    each from the directory of its name under the styles path, and none is
    loaded twice unless the global list names it twice. *)
Theorem NewManager_styles (config : StylesConfig) (log : list Load) :
  StylesPath config ≠ "" →
  NewManager Join config = Some log →
  (∀ s, s ∈ external_styles log ↔
        s ≠ "vale"
        ∧ (s ∈ GBaseStyles config
           ∨ ∃ sts, sts ∈ SBaseStyles config ∧ s ∈ sts))
  ∧ (NoDup (GBaseStyles config) → NoDup (external_styles log))
  ∧ (∀ s path, LoadExternalStyle s path ∈ log →
               path = Join [StylesPath config; s]).
Proof.
  intros Hp Hrun.
  destruct (NewManager_plan config Hp)
    as (styles & singles & Hplan & Hnone & Hnd & Hel & _).
  rewrite Hplan in Hrun. injection Hrun as <-.
  assert (external_styles
            (LoadDefaultRules :: ext (StylesPath config) styles ++ singles)
          = styles) as ->.
  { change (LoadDefaultRules :: ?l) with ([LoadDefaultRules] ++ l).
    rewrite !external_styles_app, external_styles_ext, Hnone.
    by rewrite app_nil_r. }
  split; [done|]. split; [done|].
  intros s path [?|Hin]%elem_of_cons; [done|].
  apply elem_of_app in Hin as [Hin|Hin].
  - apply elem_of_ext in Hin as (s' & _ & [= -> ->]). done.
  - by apply external_styles_none in Hin.
Qed.

(** With a styles path, a rule file is loaded on its own exactly for a
    configured check [Style.Rule] whose style is neither the built-in one
    nor loaded from a directory; the file is [Rule.yml] in the directory of
    the style. *)
Theorem NewManager_single_checks (config : StylesConfig) (log : list Load)
    (style fName path : string) :
  StylesPath config ≠ "" →
  NewManager Join config = Some log →
  LoadCheck style fName path ∈ log ↔
    style ≠ "vale" ∧ (style ∉ external_styles log)
    ∧ ∃ chk rule,
        chk ∈ Checks_ config ∧ Go.Contains1 chk "." = true
        ∧ Go.Split1 chk "." !! 0%nat = Some style
        ∧ Go.Split1 chk "." !! 1%nat = Some rule
        ∧ fName = rule +:+ ".yml"
        ∧ path = Join [StylesPath config; style; fName].
Proof.
  intros Hp Hrun.
  destruct (NewManager_plan config Hp)
    as (styles & singles & Hplan & Hnone & _ & _ & Hsing).
  rewrite Hplan in Hrun. injection Hrun as <-.
  assert (external_styles
            (LoadDefaultRules :: ext (StylesPath config) styles ++ singles)
          = styles) as ->.
  { change (LoadDefaultRules :: ?l) with ([LoadDefaultRules] ++ l).
    rewrite !external_styles_app, external_styles_ext, Hnone.
    by rewrite app_nil_r. }
  split.
  - intros [?|Hin]%elem_of_cons; [done|].
    apply elem_of_app in Hin as [Hin|Hin].
    { by apply elem_of_ext in Hin as (? & _ & ?). }
    apply Hsing in Hin
      as (chk & st & rule & Hc & Hdot & H0 & H1 & Hn & [= -> -> ->]).
    rewrite elem_of_cons in Hn.
    split; [tauto|]. split; [tauto|]. by exists chk, rule.
  - intros (Hv & Hn & chk & rule & Hc & Hdot & H0 & H1 & -> & ->).
    apply elem_of_cons. right. apply elem_of_app. right.
    apply Hsing. exists chk, style, rule.
    rewrite elem_of_cons. repeat split; try done. tauto.
Qed.

End ManagerFacts.

(* ================================================================== *)
(** ** Further scenarios                                               *)
(* ================================================================== *)

Section FurtherScenarios.
Import check lint Scenario.

Lemma ref_ToLower_empty (s : string) :
  ToLower (Runtime := Ref.runtime) s = ToLower (Runtime := Ref.runtime) ""
  → s = "".
Proof. by destruct s. Qed.

Lemma spelling_only_extends (e : string * Check_) :
  e ∈ map_to_list (AllChecks (CheckManager spelling_linter)) →
  only_extends (chk_Rule e.2).
Proof.
  destruct e as [name chk]. intros Hin%elem_of_map_to_list.
  cbn [CheckManager spelling_linter snd] in *. unfold spelling_mgr in Hin.
  unfold addConsistencyCheck in Hin.
  change (Go.index (Go.Split1 "Style.Spelling" ".") 1)
    with (Some "Spelling") in Hin.
  cbn [mbind option_bind default from_option] in Hin. unfold id in Hin.
  match type of Hin with
  | AllChecks (either_loop ?mgr ?n ?k ?re ?cd ?ei ?ct) !! _ = _ =>
      destruct (either_loop_entries (RT := Ref.runtime) n k re
                  (Level (cs_def cd)) (Code (cs_def cd)) ei mgr cd ct
                  eq_refl eq_refl) as [_ Hnew]
  end.
  destruct (Hnew name chk Hin) as [Hold|Hpair].
  - cbn [AllChecks empty_mgr] in Hold. by rewrite lookup_empty in Hold.
  - destruct Hpair as (v1 & v2 & _ & _ & _ & _ & _ & Hrule).
    intros txt seqs alerts seqs' Hrun. by apply Hrule in Hrun as [? _].
Qed.

(** A block with both spellings: the memory grows and one alert is
    emitted. *)
Lemma checkConsistency_grows_witness :
  ∃ alerts seqs',
    checkConsistency (RT := Ref.runtime) "color colour" spelling []
      spelling_re ["Spelling2"; "Spelling3"] = Some (alerts, seqs')
    ∧ [] `prefix_of` seqs'
    ∧ (alerts = []
       ∨ ∃ a loc,
           alerts = [a]
           ∧ FindAllStringSubmatchIndex (Runtime := Ref.runtime) spelling_re
               "color colour" ≠ []
           ∧ Forall (λ o, o ∈ seqs') ["Spelling2"; "Spelling3"]
           ∧ core.Check a = Extends (cs_def spelling)
           ∧ made_from (RT := Ref.runtime)
               (with_Name (cs_def spelling) (Extends (cs_def spelling)))
               "color colour" loc a).
Proof.
  eexists _, _. split; [vm_compute; reflexivity|].
  apply (checkConsistency_grows (RT := Ref.runtime) "color colour" spelling
           [] spelling_re ["Spelling2"; "Spelling3"]).
  vm_compute. reflexivity.
Defined.

Lemma checkSubstitution_completes_iff_witness :
  Forall (λ v, Nat.Even (length v))
    (FindAllStringSubmatchIndex (Runtime := Ref.runtime) swaps_re
       "We utilize tools we use.")
  ∧ MatchString (Runtime := Ref.runtime) swaps_re "We utilize tools we use."
    = true
  ∧ (is_Some (checkSubstitution (RT := Ref.runtime)
                "We utilize tools we use." swaps swaps_re ["use"; "use"])
     ↔ Forall (usable "We utilize tools we use." ["use"; "use"])
         (all_groups
            (FindAllStringSubmatchIndex (Runtime := Ref.runtime) swaps_re
               "We utilize tools we use."))).
Proof.
  split; [apply Forall_even_check; vm_compute; reflexivity|].
  split; [vm_compute; reflexivity|].
  apply (checkSubstitution_completes_iff (RT := Ref.runtime)
           "We utilize tools we use." swaps swaps_re ["use"; "use"]);
    [apply Forall_even_check; vm_compute; reflexivity
    |vm_compute; reflexivity].
Defined.

Lemma checkRepetition_adjacent_witness :
  ∃ a,
    checkRepetition (RT := Ref.runtime) "the the best" (repetition_rule 0)
      words_re = Some [a]
    ∧ a ∈ [a]
    ∧ ∃ l1 l2 p q,
        FindAllStringIndex (Runtime := Ref.runtime) words_re "the the best"
        = l1 ++ p :: q :: l2
        ∧ repeats_at (RT := Ref.runtime) (repetition_rule 0) "the the best"
            p q a.
Proof.
  eexists. split; [vm_compute; reflexivity|]. split; [left|].
  eapply (checkRepetition_adjacent (RT := Ref.runtime) "the the best"
            (repetition_rule 0) words_re);
    [vm_compute; reflexivity|left].
Defined.

Lemma checkRepetition_count_witness :
  FindAllStringIndex (Runtime := Ref.runtime) words_re "the the best"
  = loc_of <$> [(0, 3); (4, 7); (8, 12)]
  ∧ Forall (in_range "the the best") [(0, 3); (4, 7); (8, 12)]
  ∧ ∃ alerts,
      checkRepetition (RT := Ref.runtime) "the the best" (repetition_rule 0)
        words_re = Some alerts
      ∧ Z.of_nat (length alerts)
        = if re_Max (repetition_rule 0) <? 0
          then repetitions (RT := Ref.runtime) (repetition_rule 0)
                 "the the best" [(0, 3); (4, 7); (8, 12)]
          else repetitions (RT := Ref.runtime) (repetition_rule 0)
                 "the the best" [(0, 3); (4, 7); (8, 12)]
               / (re_Max (repetition_rule 0) + 1).
Proof.
  split; [vm_compute; reflexivity|]. split; [compute_done|].
  apply (checkRepetition_count (RT := Ref.runtime) "the the best"
           (repetition_rule 0) words_re [(0, 3); (4, 7); (8, 12)]);
    [vm_compute; reflexivity|compute_done|apply ref_ToLower_empty].
Defined.

Lemma addOccurrenceCheck_rule_total_witness :
  ∃ chk,
    AllChecks empty_mgr !! Name (oc_def (very 2)) = None
    ∧ AllChecks (addOccurrenceCheck (RT := Ref.runtime) empty_mgr
                   "Style.Very" (very 2)) !! Name (oc_def (very 2))
      = Some chk
    ∧ ∃ re,
        Compile (Runtime := Ref.runtime) (oc_Token (very 2)) = Some re
        ∧ 1 ≤ oc_Max (very 2)
        ∧ chk_Level chk
          = LevelToInt (Runtime := Ref.runtime) (Level (oc_def (very 2)))
        ∧ ∀ txt seqs,
            ∃ alerts,
              chk_Rule chk txt seqs = Some (alerts, seqs)
              ∧ checkOccurrence (RT := Ref.runtime) txt (very 2) re
                  (oc_Max (very 2)) = Some alerts.
Proof.
  eexists. split; [reflexivity|]. split; [reflexivity|].
  apply (addOccurrenceCheck_rule_total (RT := Ref.runtime) empty_mgr
           "Style.Very" (very 2));
    [intros r txt; apply find_all_index_pairs|reflexivity|reflexivity].
Defined.

Lemma addConsistencyCheck_entries_witness :
  addConsistencyCheck (RT := Ref.runtime) empty_mgr "Style.Spelling" spelling
  = Some spelling_mgr
  ∧ (∀ name, is_Some (AllChecks empty_mgr !! name) →
             is_Some (AllChecks spelling_mgr !! name))
  ∧ ∀ name chk,
      AllChecks spelling_mgr !! name = Some chk →
      AllChecks empty_mgr !! name = Some chk
      ∨ pair_entry (RT := Ref.runtime) "Style.Spelling"
          (Level (cs_def spelling)) (Code (cs_def spelling))
          (cs_Either spelling) name chk.
Proof.
  split; [reflexivity|].
  apply (addConsistencyCheck_entries (RT := Ref.runtime) empty_mgr
           spelling_mgr "Style.Spelling" spelling).
  reflexivity.
Defined.

Lemma lintText_empty_block_witness :
  Text empty_block = "" ∧ Raw empty_block = ""
  ∧ lintText (RT := Ref.runtime) very_linter
      (map_to_list (AllChecks (CheckManager very_linter))) md_file
      empty_block 1 0
    = Some (with_ChkToCtx md_file ∅, []).
Proof.
  split; [reflexivity|]. split; [reflexivity|].
  apply (lintText_empty_block (RT := Ref.runtime) very_linter
           (map_to_list (AllChecks (CheckManager very_linter))) md_file
           empty_block 1 0); reflexivity.
Defined.

Lemma lintText_frame_witness :
  map_to_list (AllChecks (CheckManager very_linter))
    ≡ₚ map_to_list (AllChecks (CheckManager very_linter))
  ∧ rules_total very_linter
  ∧ ∃ f' calls,
      lintText (RT := Ref.runtime) very_linter
        (map_to_list (AllChecks (CheckManager very_linter))) md_file
        very_block 1 0 = Some (f', calls)
      ∧ same_settings md_file f'
      ∧ (call_name <$> calls)
          `sublist_of` (map_to_list (AllChecks (CheckManager very_linter))).*1
      ∧ NoDup (call_name <$> calls).
Proof.
  split; [reflexivity|]. split; [apply very_total|].
  apply (lintText_frame (RT := Ref.runtime) very_linter
           (map_to_list (AllChecks (CheckManager very_linter))) md_file
           very_block 1 0); [reflexivity|apply very_total].
Defined.

Lemma lintText_memory_grows_witness :
  (∀ e, e ∈ map_to_list (AllChecks (CheckManager spelling_linter)) →
        only_extends (chk_Rule e.2))
  ∧ lintText (RT := Ref.runtime) spelling_linter
      (map_to_list (AllChecks (CheckManager spelling_linter))) md_file
      (NewBlock "" "color colour" "" "text.md") 1 0
    = Some spelling_run
  ∧ Sequences md_file `prefix_of` Sequences spelling_run.1.
Proof.
  split; [apply spelling_only_extends|].
  split; [vm_compute; reflexivity|].
  apply (lintText_memory_grows (RT := Ref.runtime) spelling_linter
           (map_to_list (AllChecks (CheckManager spelling_linter))) md_file
           spelling_run.1 (NewBlock "" "color colour" "" "text.md") 1 0
           spelling_run.2);
    [apply spelling_only_extends|vm_compute; reflexivity].
Defined.


Lemma lintLines_code_rules_silent_witness :
  (∀ n, very_order n ≡ₚ map_to_list (AllChecks (CheckManager very_linter)))
  ∧ rules_total very_linter
  ∧ hasCode_of md_file = true
  ∧ ∃ f' calls,
      lintLines (RT := Ref.runtime) (λ s, s) very_linter very_order md_file
        ["very very very big"; "so very"]
      = Some (f', calls)
      ∧ ∀ c chk,
          c ∈ calls →
          AllChecks (CheckManager very_linter) !! call_name c = Some chk →
          chk_Code chk = false.
Proof.
  split; [reflexivity|]. split; [apply very_total|].
  split; [reflexivity|].
  apply (lintLines_code_rules_silent (RT := Ref.runtime) (λ s, s)
           very_linter very_order md_file ["very very very big"; "so very"]);
    [reflexivity|apply very_total|reflexivity].
Defined.


Lemma lintFiles_cancelled_witness :
  eligible (λ _, true) closing ∧ v_done closing = true
  ∧ spawned (λ _, true) ([readme] ++ closing :: [readme; readme])
    = spawned (λ _, true) ([readme] ++ [closing]).
Proof.
  split; [repeat split|]. split; [reflexivity|].
  apply (lintFiles_cancelled (λ _, true) [readme] [readme; readme] closing);
    [repeat split|reflexivity].
Defined.

Lemma format_tables_consistent_witness :
  FormatByExtension !! "\.(?:go)$" = Some [".c"; "code"]
  ∧ ∃ ext format,
      [".c"; "code"] = [ext; format]
      ∧ format ∈ ["markup"; "code"; "text"]
      ∧ (format = "code" →
         ∃ m, CommentsByNormedExt !! ext = Some m
              ∧ is_Some (m !! "inline") ∧ is_Some (m !! "blockStart")
              ∧ is_Some (m !! "blockEnd")).
Proof.
  split; [vm_compute; reflexivity|].
  apply (format_tables_consistent "\.(?:go)$" [".c"; "code"]).
  vm_compute. reflexivity.
Defined.

Lemma NewManager_styles_witness :
  ∃ log,
    StylesPath styles ≠ ""
    ∧ NewManager join_slash styles = Some log
    ∧ (∀ s, s ∈ external_styles log ↔
            s ≠ "vale"
            ∧ (s ∈ GBaseStyles styles
               ∨ ∃ sts, sts ∈ SBaseStyles styles ∧ s ∈ sts))
    ∧ (NoDup (GBaseStyles styles) → NoDup (external_styles log))
    ∧ (∀ s path, LoadExternalStyle s path ∈ log →
                 path = join_slash [StylesPath styles; s]).
Proof.
  eexists. split; [done|]. split; [vm_compute; reflexivity|].
  apply (NewManager_styles join_slash styles); [done|vm_compute; reflexivity].
Defined.

Lemma NewManager_single_checks_witness :
  ∃ log,
    StylesPath styles ≠ ""
    ∧ NewManager join_slash styles = Some log
    ∧ (LoadCheck "Extra" "Rule.yml" "styles/Extra/Rule.yml" ∈ log ↔
         "Extra" ≠ "vale" ∧ ("Extra" ∉ external_styles log)
         ∧ ∃ chk rule,
             chk ∈ Checks_ styles ∧ Go.Contains1 chk "." = true
             ∧ Go.Split1 chk "." !! 0%nat = Some "Extra"
             ∧ Go.Split1 chk "." !! 1%nat = Some rule
             ∧ "Rule.yml" = rule +:+ ".yml"
             ∧ "styles/Extra/Rule.yml"
               = join_slash [StylesPath styles; "Extra"; "Rule.yml"]).
Proof.
  eexists. split; [done|]. split; [vm_compute; reflexivity|].
  apply (NewManager_single_checks join_slash styles _ "Extra" "Rule.yml"
           "styles/Extra/Rule.yml"); [done|vm_compute; reflexivity].
Defined.

(** The plan of that configuration: the built-in rules, the two styles
    once each, and the one rule whose style is not loaded. *)
Example styles_plan :
  NewManager join_slash styles
  = Some [LoadDefaultRules;
          LoadExternalStyle "Base" "styles/Base";
          LoadExternalStyle "Docs" "styles/Docs";
          LoadCheck "Extra" "Rule.yml" "styles/Extra/Rule.yml"].
Proof. vm_compute. reflexivity. Qed.

End FurtherScenarios.
